(** * qrng: weighted choice driven by one quantum random byte

    A shallow embedding of [src/qrng/__init__.py]: the two functions
    [quantum_random_byte] and [quantum_choice], with the Python semantics
    they rely on (exceptions, integer and floating-point arithmetic, list
    operations, the JSON payload of the HTTP response), followed by the
    properties of the specification that can be settled on the code.

    The weights are Python ints, as in the calls the module makes itself
    ([[1] * len(choices)], [[1, 2, 3]], [[1]]).  Already then line 38 is a
    floating-point computation: [w / total] is the true division of two
    ints, and its result is multiplied by 255 as a float.  Float weights are
    not modelled: they would go through [sum] on floats, whose rounding
    differs between versions of the interpreter.  (Floats with integer
    values and a total below [2^53] are summed exactly and divided like the
    ints of the same value.) *)

From Stdlib Require Import ZArith QArith Qround Qpower Qabs.
From Stdlib Require Import List String Bool Lia Lqa.
From Stdlib Require Floats.SpecFloat.
Import ListNotations.

Set Implicit Arguments.

(* ================================================================= *)
(** ** Python exceptions and results *)

Module Py.

(** Failures of the [requests] library, all subclasses of
    [requests.RequestException]. *)
Inductive request_exception :=
| Timeout              (* no answer within [timeout=5] *)
| ConnectionError      (* transport failure *)
| HTTPError (status : Z)   (* [raise_for_status] on a 4xx / 5xx answer *)
| JSONDecodeError.     (* [response.json()] on a body that is not JSON *)

(** The exceptions the two functions can raise. *)
Inductive exception :=
| ValueError_fetch (cause : request_exception)
    (* line 19: "Failed to fetch quantum random byte: {e}" *)
| ValueError_structure
    (* line 17: "Unexpected API response structure." *)
| ValueError_max_empty
    (* [max([])] *)
| ValueError_not_in_list
    (* [l.index(x)] when [x] is not in [l] *)
| ZeroDivisionError
    (* [w / 0] *)
| OverflowError
    (* [a / b] too large for a float, or [int(inf)] *)
| IndexError
    (* list index out of range *)
| KeyError
    (* missing dict key *)
| TypeError.
    (* operation applied to a value of the wrong type *)

(** Outcome of evaluating a Python expression. *)
Inductive result (A : Type) :=
| Return (a : A)
| Raise (e : exception).
Arguments Return {A} a.
Arguments Raise {A} e.

Definition bind {A B} (r : result A) (k : A -> result B) : result B :=
  match r with
  | Return a => k a
  | Raise e => Raise e
  end.

(** A list comprehension [[f(x) for x in xs]] whose body may raise: the
    elements are evaluated from left to right and the first exception
    aborts the comprehension. *)
Fixpoint comprehension {A B} (f : A -> result B) (xs : list A)
  : result (list B) :=
  match xs with
  | [] => Return []
  | x :: xs' =>
      bind (f x) (fun y =>
      bind (comprehension f xs') (fun ys => Return (y :: ys)))
  end.

End Py.

Import Py.

Notation "x <- c ;; k" := (Py.bind c (fun x => k))
  (at level 61, c at next level, right associativity).

(* ================================================================= *)
(** ** Binary64 arithmetic

    Python's [float] is IEEE-754 binary64.  A finite float is modelled by
    the rational number it denotes; the operations round the exact result to
    the nearest representable number, ties to even.  The sign of a zero is
    not observable in this program ([int(-0.0) = 0]) and is not kept. *)

Module Binary64.

Open Scope Q_scope.

Definition prec : Z := 53.
Definition emin : Z := -1074.
Definition emax : Z := 1024.

(** Exponent of the last mantissa bit of a number in [2^(ex-1), 2^ex). *)
Definition fexp (ex : Z) : Z := Z.max (ex - prec) emin.

(** For [x > 0], the exponent [ex] with [2^(ex-1) <= x < 2^ex]. *)
Definition mag (x : Q) : Z :=
  let d := (Z.log2 (Qnum x) - Z.log2 (Zpos (Qden x)))%Z in
  if Qle_bool (2 ^ d) x then (d + 1)%Z else d.

(** Nearest integer to [y >= 0], ties to even. *)
Definition round_half_even (y : Q) : Z :=
  let f := Qfloor y in
  match Qcompare (y - inject_Z f) (1 # 2) with
  | Lt => f
  | Eq => if Z.even f then f else (f + 1)%Z
  | Gt => (f + 1)%Z
  end.

Definition RN_pos (x : Q) : Q :=
  let e := fexp (mag x) in
  inject_Z (round_half_even (x / 2 ^ e)) * 2 ^ e.

(** Round to nearest even, exponent unbounded above. *)
Definition RN (x : Q) : Q :=
  match Qcompare x 0 with
  | Eq => 0
  | Gt => RN_pos x
  | Lt => - RN_pos (- x)
  end.

(** A float: a finite one, or an infinity produced by overflow.  No NaN
    can arise in this program. *)
Inductive float :=
| Finite (x : Q)
| Infinity (negative : bool).

Definition overflows (y : Q) : bool := Qle_bool (2 ^ emax) (Qabs y).

(** [a / b] on Python ints: the exact quotient correctly rounded;
    [ZeroDivisionError] for [b = 0], [OverflowError] when the rounded
    quotient is not a finite float. *)
Definition truediv (a b : Z) : result Q :=
  if (b =? 0)%Z then Raise ZeroDivisionError
  else
    let y := RN (inject_Z a / inject_Z b) in
    if overflows y then Raise OverflowError else Return y.

(** [x * n] for a finite float [x] and an int [n] that is exactly
    representable (here [n = 255]): the rounded product, an infinity on
    overflow. *)
Definition mul (x : Q) (n : Z) : float :=
  let y := RN (x * inject_Z n) in
  if overflows y then Infinity (Qle_bool y 0) else Finite y.

(** Truncation towards zero. *)
Definition trunc (x : Q) : Z := Z.quot (Qnum x) (Zpos (Qden x)).

(** [int(x)] on a float. *)
Definition int (x : float) : result Z :=
  match x with
  | Finite y => Return (trunc y)
  | Infinity _ => Raise OverflowError
  end.

(** [2^-52], the spacing of the floats in [1, 2) and a bound on the relative
    error of a rounding. *)
Definition u : Q := 1 # 4503599627370496.

(** *** Cross-check against the IEEE-754 reference operations of the
    standard library ([SpecFloat], the specification of Rocq's primitive
    floats). *)

Import Floats.SpecFloat.

Definition SF2Q (f : spec_float) : option Q :=
  match f with
  | S754_zero _ => Some 0
  | S754_finite s m e =>
      Some ((if s then - inject_Z (Zpos m) else inject_Z (Zpos m)) * 2 ^ e)
  | _ => None
  end.

Definition Z2SF (z : Z) : spec_float :=
  match z with
  | Z0 => S754_zero false
  | Zpos p => S754_finite false p 0
  | Zneg p => S754_finite true p 0
  end.

Definition same (f : spec_float) (r : option Q) : bool :=
  match SF2Q f, r with
  | Some x, Some y => Qeq_bool x y
  | None, None => true
  | _, _ => false
  end.

Definition finite (x : float) : option Q :=
  match x with Finite y => Some y | Infinity _ => None end.

(** The quotient and the product by 255, computed both ways. *)
Definition agree (a b : Z) : bool :=
  let q := SFdiv prec emax (Z2SF a) (Z2SF b) in
  match truediv a b with
  | Return x =>
      same q (Some x)
      && same (SFmul prec emax q (Z2SF 255)) (finite (mul x 255))
  | Raise _ => same q None
  end.

Definition agree_upto (n : nat) : bool :=
  forallb (fun b =>
    forallb (fun a => agree (Z.of_nat a) (Z.of_nat b)) (seq 0 (S b)))
    (seq 1 n).

End Binary64.

(* ================================================================= *)
(** ** Python built-ins on lists *)

Module PyList.

Open Scope Z_scope.

(** [sum(l)]: accumulation from [0], left to right.  On ints it is exact. *)
Definition sum (l : list Z) : Z := fold_left Z.add l 0.

(** [max(l)]: the first element is the initial candidate, a later element
    replaces it only when strictly greater. *)
Definition running_max (m y : Z) : Z := if m <? y then y else m.

Definition max (l : list Z) : result Z :=
  match l with
  | [] => Raise ValueError_max_empty
  | x :: l' => Return (fold_left running_max l' x)
  end.

(** [l.index(x)]: position of the first element equal to [x]. *)
Fixpoint index (x : Z) (l : list Z) : result nat :=
  match l with
  | [] => Raise ValueError_not_in_list
  | y :: l' =>
      if y =? x then Return O
      else i <- index x l' ;; Return (S i)
  end.

(** [l[i] += d] for an index [i >= 0]: the list after the assignment. *)
Fixpoint add_at (l : list Z) (i : nat) (d : Z) : result (list Z) :=
  match l, i with
  | [], _ => Raise IndexError
  | x :: l', O => Return ((x + d) :: l')
  | x :: l', S j => l'' <- add_at l' j d ;; Return (x :: l'')
  end.

(** [[c] * n]: [n] copies of [c], none when [n <= 0]. *)
Definition times {A} (c : A) (n : Z) : list A := repeat c (Z.to_nat n).

(** [l[i]] for a Python int [i]: a negative index counts from the end. *)
Definition getitem {A} (l : list A) (i : Z) : result A :=
  let n := Z.of_nat (List.length l) in
  let j := if i <? 0 then i + n else i in
  if (0 <=? j) && (j <? n) then
    match nth_error l (Z.to_nat j) with
    | Some a => Return a
    | None => Raise IndexError
    end
  else Raise IndexError.

End PyList.

(* ================================================================= *)
(** ** The JSON payload and the remote service *)

Module Json.

Open Scope string_scope.

(** What [response.json()] returns. *)
#[local] Set Warnings "-register-all".
Inductive json :=
| JNone
| JBool (b : bool)
| JInt (n : Z)
| JFloat (x : Q)
| JStr (s : string)
| JList (l : list json)
| JDict (items : list (string * json)).   (* keys are distinct *)

Definition is_str (s : string) (v : json) : bool :=
  match v with JStr s' => String.eqb s s' | _ => false end.

Fixpoint lookup (k : string) (items : list (string * json)) : option json :=
  match items with
  | [] => None
  | (k', v) :: items' => if String.eqb k k' then Some v else lookup k items'
  end.

(** [k in v] for a string [k]: key membership on a dict, element
    membership on a list, substring test on a string. *)
Definition contains (k : string) (v : json) : result bool :=
  match v with
  | JDict items =>
      Return (match lookup k items with Some _ => true | None => false end)
  | JList l => Return (existsb (is_str k) l)
  | JStr s =>
      Return (match String.index 0 k s with Some _ => true | None => false end)
  | _ => Raise TypeError
  end.

(** [v[k]] for a string [k]. *)
Definition getkey (k : string) (v : json) : result json :=
  match v with
  | JDict items =>
      match lookup k items with
      | Some x => Return x
      | None => Raise KeyError
      end
  | _ => Raise TypeError
  end.

(** [len(v)]. *)
Definition len (v : json) : result Z :=
  match v with
  | JList l => Return (Z.of_nat (List.length l))
  | JStr s => Return (Z.of_nat (String.length s))
  | JDict items => Return (Z.of_nat (List.length items))
  | _ => Raise TypeError
  end.

(** [v[0]]. *)
Definition first (v : json) : result json :=
  match v with
  | JList (x :: _) => Return x
  | JList [] => Raise IndexError
  | JStr (String c _) => Return (JStr (String c EmptyString))
  | JStr EmptyString => Raise IndexError
  | JDict _ => Raise KeyError
  | _ => Raise TypeError
  end.

(** [l[v]] for a list [l]: the index must be an int ([bool] is a subclass
    of [int]). *)
Definition subscript {A} (l : list A) (v : json) : result A :=
  match v with
  | JInt i => PyList.getitem l i
  | JBool b => PyList.getitem l (if b then 1 else 0)%Z
  | _ => Raise TypeError
  end.

End Json.

Module Http.

Import Json.

(** What one GET on the service's URL leads to. *)
Inductive outcome :=
| NoResponse (e : request_exception)   (* [requests.get] raises *)
| Response (status : Z) (body : option json).
    (* an answer; [body] is [None] when it is not JSON *)

(** The world outside the program: the answers of the service to the
    successive requests, and the number of requests issued so far. *)
Record world := World {
  service : nat -> outcome;
  issued : nat
}.

(** [requests.get(url, timeout=5)]. *)
Definition get (w : world) : outcome * world :=
  (service w (issued w), World (service w) (S (issued w))).

(** [response.raise_for_status()] raises on 4xx and 5xx. *)
Definition is_error_status (status : Z) : bool :=
  ((400 <=? status) && (status <? 600))%Z.

End Http.

(* ================================================================= *)
(** ** The program *)

Module Qrng.

Import Binary64 PyList Json Http.
Open Scope Z_scope.

(** *** [quantum_random_byte] (lines 4-19) *)

(** Lines 13-17, on the parsed payload [data]. *)
Definition validate (data : json) : result json :=
  has <- contains "data" data ;;
  if has then
    d <- getkey "data" data ;;
    n <- len d ;;
    if n =? 1 then
      d' <- getkey "data" data ;;
      first d'
    else Raise ValueError_structure
  else Raise ValueError_structure.

(** The [try] block: an exception of [requests] is re-raised as a
    [ValueError]; anything else propagates. *)
Definition quantum_random_byte (w : world) : result json * world :=
  let (o, w') := get w in
  (match o with
   | NoResponse e => Raise (ValueError_fetch e)
   | Response status body =>
       if is_error_status status
       then Raise (ValueError_fetch (HTTPError status))
       else
         match body with
         | None => Raise (ValueError_fetch JSONDecodeError)
         | Some data => validate data
         end
   end, w').

(** *** [quantum_choice] (lines 21-54) *)

Section Choice.

Context {A : Type}.

(** Lines 33-34: [weights] defaults to [[1] * len(choices)].  The
    weights are Python ints. *)
Definition effective_weights (choices : list A) (weights : option (list Z))
  : list Z :=
  match weights with
  | None => times 1 (Z.of_nat (List.length choices))
  | Some ws => ws
  end.

(** Line 38, one element: [int((w / total) * 255)]. *)
Definition scaled (total w : Z) : result Z :=
  q <- truediv w total ;;
  int (mul q 255).

(** The value of line 38 when nothing is raised: the floor of the float
    [(w / total) * 255]. *)
Definition floor_scaled (total w : Z) : Z :=
  Qfloor (RN (RN (inject_Z w / inject_Z total) * 255)).

(** Lines 37-38: the table before the adjustment. *)
Definition raw_weights (weights : list Z) : result (list Z) :=
  let total := sum weights in
  comprehension (scaled total) weights.

(** Line 41. *)
Definition adjustment (normalized_weights : list Z) : Z :=
  255 - sum normalized_weights.

(** Line 44. *)
Definition max_idx (weights : list Z) : result nat :=
  m <- max weights ;;
  index m weights.

(** Lines 37-45: the table after the adjustment. *)
Definition normalized_weights (weights : list Z) : result (list Z) :=
  raw <- raw_weights weights ;;
  if adjustment raw >? 0 then
    i <- max_idx weights ;;
    add_at raw i (adjustment raw)
  else Return raw.

(** Line 50, the slots of one choice: [[choice] * weight]. *)
Definition slots (cw : A * Z) : list A := times (fst cw) (snd cw).

(** Lines 48-50. *)
Definition choice_map (choices : list A) (normalized : list Z) : list A :=
  fold_left (fun cm cw => (cm ++ slots cw)%list)
            (combine choices normalized) [].

(** Lines 33-50: everything that precedes the request. *)
Definition build (choices : list A) (weights : option (list Z))
  : result (list A) :=
  nw <- normalized_weights (effective_weights choices weights) ;;
  Return (choice_map choices nw).

(** The whole function. *)
Definition quantum_choice (choices : list A) (weights : option (list Z))
  (w : world) : result A * world :=
  match build choices weights with
  | Raise e => (Raise e, w)
  | Return cm =>
      let (r, w') := quantum_random_byte w in
      (random_byte <- r ;; subscript cm random_byte, w')
  end.

End Choice.

End Qrng.

(* ================================================================= *)
(** ** Vocabulary of the specification *)

Module Spec.

Import Binary64 PyList Json Http Qrng.
Open Scope Z_scope.

(** Valid weights: non-negative, with a positive sum. *)
Definition valid_weights (ws : list Z) : Prop :=
  Forall (fun w => 0 <= w) ws /\ 0 < sum ws.

(** Valid input of [quantum_choice]: at least one choice and, when weights
    are given, as many valid weights as choices. *)
Definition valid_input {A} (choices : list A) (weights : option (list Z))
  : Prop :=
  choices <> [] /\
  match weights with
  | None => True
  | Some ws => List.length ws = List.length choices /\ valid_weights ws
  end.


(** [quantum_choice] raises before any request is issued: the world is the
    one it started in. *)
Definition fails_before_request {A} (choices : list A)
  (weights : option (list Z)) (w : world) : Prop :=
  exists e, quantum_choice choices weights w = (Raise e, w).

(** A service that answers every request with status 200 and the payload
    [{"data": [b]}]. *)
Definition byte_service (b : Z) : world :=
  World (fun _ => Response 200 (Some (JDict [("data"%string, JList [JInt b])])))
        0.

(** Another service sending the byte 5: other status, other fields, and
    three requests already issued. *)
Definition other_service : world :=
  World (fun _ =>
           Response 201
             (Some (JDict [("success"%string, JBool true);
                           ("data"%string, JList [JInt 5])])))
        3.

(** A service whose answer to every request is the status 500. *)
Definition failing_service : world :=
  World (fun _ => Response 500 None) 0.

(** The 256 weights [k] out of a total of 255, for which the exact value
    of line 38 is the integer [k]. *)
Definition exact_multiples : bool :=
  forallb (fun k => Qfloor (RN (RN (inject_Z k / 255) * 255)) =? k)
          (map Z.of_nat (seq 0 256)).

(** Quotients at the edges of the binary64 format: ties, subnormal
    numbers, underflow, overflow, operands beyond [2^53]. *)
Definition edge_quotients : list (Z * Z) :=
  [(1, 6); (-1, 3); (0, -5); (7, -2);
   (209570587490827984, 411080767770470277);
   (1, 10 ^ 400); (10 ^ 300, 7); (10 ^ 400, 7); (5, 10 ^ 320);
   (1, 2 ^ 1074); (1, 2 ^ 1075); (3, 2 ^ 1075); (5, 2 ^ 1076);
   (1, 3 * 2 ^ 1074); (7, 3 * 2 ^ 1074); (-7, 2 ^ 1030);
   (2 ^ 1024, 1); (2 ^ 1024 - 2 ^ 970 - 1, 1); (2 ^ 1024 - 2 ^ 970, 1);
   (2 ^ 1023, 100); (- 2 ^ 1023, 100); (2 ^ 53 + 1, 1); (2 ^ 54 + 6, 4)].

End Spec.


(* ================================================================= *)
(** ** The callers of [quantum_choice] *)

(** A Python dict from strings to ints, as the list of its items in
    insertion order. *)
Module PyDict.

Open Scope Z_scope.

Definition dict := list (string * Z).

(** [d.get(k, default)]. *)
Fixpoint get (k : string) (d : dict) (default : Z) : Z :=
  match d with
  | [] => default
  | (k', v) :: d' => if String.eqb k k' then v else get k d' default
  end.

(** [d[k] = v]: the value of an existing key is replaced in place, a new
    key is added at the end. *)
Fixpoint set (k : string) (v : Z) (d : dict) : dict :=
  match d with
  | [] => [(k, v)]
  | (k', v') :: d' =>
      if String.eqb k k' then (k', v) :: d' else (k', v') :: set k v d'
  end.

Definition keys (d : dict) : list string := map fst d.

Definition values (d : dict) : list Z := map snd d.

End PyDict.

(** [test_quantum_choice_distribution] (lines 56-75), up to the end of the
    sampling loop.  The table printed afterwards (lines 67-75) formats
    floats and is not modelled. *)
Module DistributionTest.

Import PyList Json Http Qrng PyDict.
Open Scope Z_scope.

(** Lines 63-65, for [samples] rounds: one draw per round, counted in
    [results]; an exception of a draw leaves the loop and the function. *)
Fixpoint sampling (fruits : list string) (weights : list Z) (samples : nat)
  (results : dict) (w : world) : result dict * world :=
  match samples with
  | O => (Return results, w)
  | S samples' =>
      match quantum_choice fruits (Some weights) w with
      | (Return choice, w') =>
          sampling fruits weights samples'
                   (set choice (get choice results 0 + 1) results) w'
      | (Raise e, w') => (Raise e, w')
      end
  end.

(** Lines 57-65: the dict [results] at the end of the loop. *)
Definition test_quantum_choice_distribution (w : world)
  : result dict * world :=
  sampling ["apple"; "banana"; "cherry"]%string [1; 2; 3] 1000 [] w.

End DistributionTest.

(** The command line (lines 86-110), from the namespace [args] that
    [parser.parse_args()] returns to the call it leads to. *)
Module Cli.

Import PyList.
Open Scope Z_scope.

Section Args.

(** The type of a weight read by [type=float]. *)
Context {W : Type}.

Record namespace := Namespace {
  choices : list string;        (* [nargs='*']: [[]] when none is given *)
  weights : option (list W);    (* [None] without [-w], [[]] for [-w] alone *)
  test_distribution : bool;
  test_rate_limit : bool
}.

(** The weights handed to [quantum_choice]: the ints of lines 104 and 108,
    or the floats of the command line. *)
Inductive call_weights :=
| Ints (ws : list Z)
| Floats (ws : list W).

(** What the script does. *)
Inductive action :=
| RunDistributionTest           (* line 98 *)
| RunRateLimitTest              (* line 100 *)
| UsageError                    (* line 106: [parser.error], exit status 2 *)
| PrintChoice (cs : list string) (ws : call_weights).   (* line 110 *)

(** Lines 97-110. *)
Definition main (args : namespace) : action :=
  if test_distribution args then RunDistributionTest
  else if test_rate_limit args then RunRateLimitTest
  else
    match choices args with
    | [] => PrintChoice ["apple"; "banana"; "cherry"]%string (Ints [1; 2; 3])
    | _ :: _ =>
        match weights args with
        | Some (x :: xs) =>
            if Nat.eqb (List.length (x :: xs)) (List.length (choices args))
            then PrintChoice (choices args) (Floats (x :: xs))
            else UsageError
        | _ =>
            PrintChoice (choices args)
                        (Ints (times 1 (Z.of_nat (List.length (choices args)))))
        end
    end.

(** The number of weights of a call. *)
Definition weight_count (ws : call_weights) : nat :=
  match ws with
  | Ints l => List.length l
  | Floats l => List.length l
  end.

End Args.

Arguments namespace : clear implicits.
Arguments call_weights : clear implicits.
Arguments action : clear implicits.

End Cli.

(** Vocabulary for the properties of the choice map and of the service. *)
Module Slots.

Import PyList Json Http Qrng.
Open Scope Z_scope.

(** The first slot of position [i]: the entries before it, added up. *)
Definition offset (normalized : list Z) (i : nat) : Z :=
  sum (firstn i normalized).

(** [k] is the first position of the maximum [m] of [ws]. *)
Definition first_max (ws : list Z) (k : nat) (m : Z) : Prop :=
  nth_error ws k = Some m
  /\ Forall (fun y => y <= m) ws
  /\ forall j y, (j < k)%nat -> nth_error ws j = Some y -> y < m.

(** The value [quantum_random_byte] returns on the request number [j] of
    the world [w]. *)
Definition answer (w : world) (j : nat) : result json :=
  fst (quantum_random_byte (World (service w) j)).

(** The requests [issued w], ..., [issued w + n - 1] are answered by
    integers between 0 and 254. *)
Definition good_bytes (w : world) (n : nat) : Prop :=
  forall j, (j < n)%nat ->
    exists b, answer w (issued w + j) = Return (JInt b) /\ 0 <= b < 255.

(** A service that sends the byte 255 to the request number [k] and the
    byte 0 to the others. *)
Definition service_255_at (k : nat) : world :=
  World (fun j =>
           Response 200
             (Some (JDict [("data"%string,
                            JList [JInt (if Nat.eqb j k then 255 else 0)])])))
        0.

End Slots.

(* ================================================================= *)
(** ** Facts about the rounding *)

Module Binary64Facts.

Import Binary64 Spec.
Open Scope Q_scope.

(** The operations agree with the reference operations [SFdiv] and [SFmul]
    of the standard library on every quotient [a / b] with
    [0 <= a <= b <= 40], and at the edges of the format. *)
Example rounding_agrees_with_SpecFloat :
  agree_upto 40 = true
  /\ forallb (fun ab => agree (fst ab) (snd ab)) edge_quotients = true.
Proof. split; vm_compute; reflexivity. Qed.

Lemma two_pow_pos (e : Z) : 0 < 2 ^ e.
Proof. apply Qpower_0_lt. reflexivity. Qed.

Lemma two_pow_succ (e : Z) : 2 ^ (e + 1) == 2 * 2 ^ e.
Proof.
  rewrite Qpower_plus by discriminate.
  change (2 ^ 1) with 2. ring.
Qed.

Lemma two_pow_Z (n : Z) : (0 <= n)%Z -> inject_Z (2 ^ n) == 2 ^ n.
Proof. intros Hn. now rewrite Zpower_Qpower. Qed.

(** [Z.log2] brackets a positive integer between two powers of two. *)
Lemma log2_bracket (a : Z) :
  (0 < a)%Z ->
  2 ^ Z.log2 a <= inject_Z a /\ inject_Z a < 2 * 2 ^ Z.log2 a.
Proof.
  intros Ha.
  destruct (Z.log2_spec a Ha) as [Hl Hu].
  pose proof (Z.log2_nonneg a) as Hn.
  split.
  - rewrite <- two_pow_Z by assumption. now rewrite <- Zle_Qle.
  - rewrite <- two_pow_succ.
    rewrite <- two_pow_Z by lia.
    rewrite <- Zlt_Qlt. now rewrite <- Z.add_1_r in Hu.
Qed.

(** [mag] is a lower bracket: a positive [x] is at least [2^(mag x - 1)]. *)
Lemma mag_lower (x : Q) : 0 < x -> 2 ^ (mag x - 1) <= x.
Proof.
  intros Hx. unfold mag.
  set (d := (Z.log2 (Qnum x) - Z.log2 (Zpos (Qden x)))%Z).
  destruct (Qle_bool (2 ^ d) x) eqn:Hc.
  - replace (d + 1 - 1)%Z with d by lia. now apply Qle_bool_iff.
  - destruct x as [a b]. cbn [Qnum Qden] in d.
    assert (Ha : (0 < a)%Z).
    { unfold Qlt in Hx. simpl in Hx. lia. }
    destruct (log2_bracket Ha) as [Hal _].
    destruct (log2_bracket (a := Zpos b) eq_refl) as [_ Hbu].
    assert (Hd : 2 ^ Z.log2 a == 2 ^ (d - 1) * (2 * 2 ^ Z.log2 (Zpos b))).
    { rewrite <- two_pow_succ, <- Qpower_plus by discriminate.
      subst d. f_equiv. lia. }
    pose proof (two_pow_pos (d - 1)) as Hp.
    set (P := 2 ^ (d - 1)) in *.
    set (L := 2 ^ Z.log2 (Zpos b)) in *.
    rewrite (Qmake_Qdiv a b).
    apply Qle_shift_div_l; [reflexivity|].
    apply Qle_trans with (P * (2 * L)).
    + apply Qmult_le_l; [assumption|]. now apply Qlt_le_weak.
    + rewrite <- Hd. assumption.
Qed.

(** [mag] is the upper bracket as well. *)
Lemma mag_upper (x : Q) : 0 < x -> x < 2 ^ mag x.
Proof.
  intros Hx. unfold mag.
  set (d := (Z.log2 (Qnum x) - Z.log2 (Zpos (Qden x)))%Z).
  destruct (Qle_bool (2 ^ d) x) eqn:Hc.
  - destruct x as [a b]. cbn [Qnum Qden] in d.
    assert (Ha : (0 < a)%Z).
    { unfold Qlt in Hx. simpl in Hx. lia. }
    destruct (log2_bracket Ha) as [_ Hau].
    destruct (log2_bracket (a := Zpos b) eq_refl) as [Hbl _].
    assert (Hd : 2 * 2 ^ Z.log2 a == 2 ^ (d + 1) * 2 ^ Z.log2 (Zpos b)).
    { rewrite <- two_pow_succ, <- Qpower_plus by discriminate.
      subst d. f_equiv. lia. }
    pose proof (two_pow_pos (d + 1)) as Hp.
    set (P := 2 ^ (d + 1)) in *.
    set (L := 2 ^ Z.log2 (Zpos b)) in *.
    rewrite (Qmake_Qdiv a b).
    apply Qlt_shift_div_r; [reflexivity|].
    apply Qlt_le_trans with (P * L).
    + rewrite <- Hd. assumption.
    + apply Qmult_le_l; assumption.
  - apply Qnot_le_lt. intros H. apply Qle_bool_iff in H. congruence.
Qed.

(** The two brackets determine the exponent. *)
Lemma mag_unique (x : Q) (e : Z) :
  2 ^ (e - 1) <= x -> x < 2 ^ e -> 0 < x -> mag x = e.
Proof.
  intros Hl Hu Hx.
  pose proof (mag_lower Hx) as Hl'. pose proof (mag_upper Hx) as Hu'.
  assert (H1 : (2:Q) ^ (e - 1) < 2 ^ mag x) by (eapply Qle_lt_trans; eassumption).
  assert (H2 : (2:Q) ^ (mag x - 1) < 2 ^ e) by (eapply Qle_lt_trans; eassumption).
  apply Qpower_lt_compat_l_inv in H1; [|reflexivity].
  apply Qpower_lt_compat_l_inv in H2; [|reflexivity].
  lia.
Qed.

(** The rounding depends on the number, not on the fraction that
    represents it. *)
Lemma mag_comp (x y : Q) : 0 < x -> x == y -> mag x = mag y.
Proof.
  intros Hx E. symmetry. apply mag_unique; rewrite <- E.
  - now apply mag_lower.
  - now apply mag_upper.
  - assumption.
Qed.

Lemma round_half_even_comp (x y : Q) :
  x == y -> round_half_even x = round_half_even y.
Proof.
  intros E. unfold round_half_even.
  rewrite (Qfloor_comp _ _ E).
  now rewrite (Qcompare_comp (x - inject_Z (Qfloor y)) (y - inject_Z (Qfloor y))
                 ltac:(now rewrite E) (1 # 2) (1 # 2) ltac:(reflexivity)).
Qed.

Lemma RN_pos_comp (x y : Q) : 0 < x -> x == y -> RN_pos x == RN_pos y.
Proof.
  intros Hx E. unfold RN_pos. rewrite (mag_comp Hx E).
  rewrite (@round_half_even_comp (x / 2 ^ fexp (mag y)) (y / 2 ^ fexp (mag y)));
    [reflexivity|now rewrite E].
Qed.

Lemma RN_comp (x y : Q) : x == y -> RN x == RN y.
Proof.
  intros E. unfold RN.
  rewrite (Qcompare_comp x y E 0 0 ltac:(reflexivity)).
  destruct (Qcompare y 0) eqn:Hc.
  - reflexivity.
  - apply Qlt_alt in Hc.
    rewrite (@RN_pos_comp (- x) (- y)); [reflexivity| |now rewrite E].
    rewrite E. lra.
  - apply Qgt_alt in Hc. apply RN_pos_comp; [|assumption]. now rewrite E.
Qed.

(** The nearest integer is within one half, and even on a tie. *)
Lemma round_half_even_nearest (y : Q) :
  - (1 # 2) <= inject_Z (round_half_even y) - y <= 1 # 2
  /\ (y - inject_Z (Qfloor y) == 1 # 2 ->
      Z.even (round_half_even y) = true).
Proof.
  unfold round_half_even.
  pose proof (Qfloor_le y) as Hf. pose proof (Qlt_floor y) as Hc.
  rewrite inject_Z_plus in Hc. change (inject_Z 1) with 1 in Hc.
  set (f := Qfloor y) in *.
  destruct (Qcompare (y - inject_Z f) (1 # 2)) eqn:E.
  - apply Qeq_alt in E. split.
    + destruct (Z.even f); [lra|].
      rewrite inject_Z_plus. change (inject_Z 1) with 1. lra.
    + intros _. destruct (Z.even f) eqn:Ev; [assumption|].
      rewrite Z.even_add, Ev. reflexivity.
  - apply Qlt_alt in E. split; [lra|]. intros H. lra.
  - apply Qgt_alt in E. split.
    + rewrite inject_Z_plus. change (inject_Z 1) with 1. lra.
    + intros H. lra.
Qed.

(** [RN_pos x] is a multiple of the spacing [2^e] around [x], at most half
    a spacing away from [x]. *)
Lemma RN_pos_nearest (x : Q) :
  0 < x ->
  let e := fexp (mag x) in
  - (2 ^ e / 2) <= RN_pos x - x <= 2 ^ e / 2.
Proof.
  intros Hx e. unfold RN_pos. fold e.
  pose proof (two_pow_pos e) as Hp.
  set (p := 2 ^ e) in *.
  destruct (round_half_even_nearest (x / p)) as [[Hl Hu] _].
  set (m := inject_Z (round_half_even (x / p))) in *.
  assert (E : m * p - x == (m - x / p) * p) by (field; lra).
  rewrite E. clear E.
  assert (Hh : p / 2 == (1 # 2) * p) by field.
  rewrite Hh. clear Hh.
  set (d := m - x / p) in *. clearbody d. clearbody p.
  split.
  - apply Qle_trans with (- (1 # 2) * p); [lra|].
    apply Qmult_le_compat_r; lra.
  - apply Qmult_le_compat_r; lra.
Qed.

(** The nearest integer is at most one above the number. *)
Lemma round_half_even_bounds (y : Q) :
  0 <= y ->
  (0 <= round_half_even y)%Z /\ inject_Z (round_half_even y) <= y + 1.
Proof.
  intros Hy. unfold round_half_even.
  pose proof (Qfloor_le y) as Hf.
  assert (H0 : (0 <= Qfloor y)%Z).
  { change 0%Z with (Qfloor 0). now apply Qfloor_resp_le. }
  assert (H1 : inject_Z (Qfloor y + 1) <= y + 1).
  { rewrite inject_Z_plus. change (inject_Z 1) with 1. lra. }
  destruct (Qcompare _ _); [destruct (Z.even _)| |]; split;
    try lia; try assumption; lra.
Qed.

Lemma RN_pos_bounds (x : Q) :
  0 < x -> 0 <= RN_pos x /\ RN_pos x <= x + 2 ^ fexp (mag x).
Proof.
  intros Hx. unfold RN_pos.
  pose proof (two_pow_pos (fexp (mag x))) as Hp.
  set (p := 2 ^ fexp (mag x)) in *.
  assert (Hy : 0 <= x / p).
  { apply Qle_shift_div_l; [assumption|]. lra. }
  destruct (round_half_even_bounds Hy) as [Hm0 Hm1].
  set (m := round_half_even (x / p)) in *.
  assert (Hm0' : 0 <= inject_Z m) by (now rewrite <- (Zle_Qle 0)).
  split.
  - apply Qmult_le_0_compat; lra.
  - apply Qle_trans with ((x / p + 1) * p).
    + apply Qmult_le_compat_r; lra.
    + assert (E : (x / p + 1) * p == x + p) by (field; lra).
      rewrite E. apply Qle_refl.
Qed.

Lemma u_eq : u == 2 ^ (-52).
Proof. reflexivity. Qed.

(** The error of one rounding, from above: the fraction [u] of the number,
    or the spacing [2^emin] of the subnormal numbers. *)
Lemma RN_bounds (x : Q) :
  0 <= x -> 0 <= RN x /\ RN x <= x * (1 + u) + 2 ^ emin.
Proof.
  intros Hx. unfold RN.
  pose proof (two_pow_pos emin) as Ht.
  destruct (Qcompare x 0) eqn:Hc.
  - apply Qeq_alt in Hc. split; [apply Qle_refl|]. rewrite Hc.
    unfold u. lra.
  - apply Qlt_alt in Hc. lra.
  - apply Qgt_alt in Hc.
    destruct (RN_pos_bounds Hc) as [H0 H1]. split; [assumption|].
    pose proof (mag_lower Hc) as Hm.
    unfold fexp in H1.
    destruct (Z.max_spec (mag x - prec) emin) as [[_ E]|[_ E]];
      rewrite E in H1.
    + assert (Hu : 0 <= u) by (unfold u; lra).
      assert (0 <= x * u) by (apply Qmult_le_0_compat; lra). lra.
    + assert (Hs : 2 ^ (mag x - prec) == 2 ^ (mag x - 1) * u).
      { rewrite u_eq, <- Qpower_plus by discriminate.
        f_equiv. unfold prec. lia. }
      rewrite Hs in H1.
      assert (2 ^ (mag x - 1) * u <= x * u).
      { apply Qmult_le_compat_r; [assumption|]. unfold u; lra. }
      lra.
Qed.

(** The mantissa of a rounded number has at most 53 bits (a carry to
    [2^53] included). *)
Lemma RN_pos_mantissa (x : Q) :
  0 < x ->
  (0 <= round_half_even (x / 2 ^ fexp (mag x)) <= 2 ^ prec)%Z.
Proof.
  intros Hx.
  pose proof (two_pow_pos (fexp (mag x))) as Hp.
  assert (Hy : 0 <= x / 2 ^ fexp (mag x)).
  { apply Qle_shift_div_l; [assumption|]. lra. }
  destruct (round_half_even_bounds Hy) as [H0 _]. split; [assumption|].
  destruct (round_half_even_nearest (x / 2 ^ fexp (mag x))) as [[_ Hu] _].
  assert (Hlt : x / 2 ^ fexp (mag x) < 2 ^ prec).
  { apply Qlt_shift_div_r; [assumption|].
    rewrite <- Qpower_plus by discriminate.
    apply Qlt_le_trans with (2 ^ mag x); [now apply mag_upper|].
    apply Qpower_le_compat_l; [|discriminate].
    unfold fexp, prec. lia. }
  set (m := round_half_even (x / 2 ^ fexp (mag x))) in *.
  assert (Hm : inject_Z m < inject_Z (2 ^ prec + 1)).
  { rewrite inject_Z_plus, two_pow_Z by (unfold prec; lia).
    change (inject_Z 1) with 1. lra. }
  rewrite <- Zlt_Qlt in Hm. lia.
Qed.

(** The relative error of one rounding, from below. *)
Lemma RN_lower (x : Q) : 0 <= x -> x * (1 - u) - 2 ^ emin <= RN x.
Proof.
  intros Hx.
  pose proof (two_pow_pos emin) as Ht.
  assert (Hu : 0 <= u) by (unfold u; lra).
  unfold RN. destruct (Qcompare x 0) eqn:Hc.
  - apply Qeq_alt in Hc. rewrite Hc. lra.
  - apply Qlt_alt in Hc. lra.
  - apply Qgt_alt in Hc.
    destruct (RN_pos_nearest Hc) as [Hl _]. cbv zeta in Hl.
    pose proof (two_pow_pos (fexp (mag x))) as Hp.
    pose proof (mag_lower Hc) as Hm.
    unfold fexp in *.
    destruct (Z.max_spec (mag x - prec) emin) as [[_ E]|[_ E]];
      rewrite E in *.
    + assert (0 <= x * u) by (apply Qmult_le_0_compat; lra).
      set (t := 2 ^ emin) in *.
      assert (Hh : t / 2 == (1 # 2) * t) by field.
      rewrite Hh in Hl. lra.
    + assert (Hs : 2 ^ (mag x - prec) == 2 ^ (mag x - 1) * u).
      { rewrite u_eq, <- Qpower_plus by discriminate.
        f_equiv. unfold prec. lia. }
      rewrite Hs in Hl, Hp.
      assert (2 ^ (mag x - 1) * u <= x * u).
      { apply Qmult_le_compat_r; [assumption|]. unfold u; lra. }
      set (t := 2 ^ emin) in *.
      set (s := 2 ^ (mag x - 1) * u) in *.
      assert (Hh : s / 2 == (1 # 2) * s) by field.
      rewrite Hh in Hl. lra.
Qed.

Lemma emin_small : 2 ^ emin <= 1 # 1000000000000000000000000000000.
Proof. apply Qle_bool_iff. vm_compute. reflexivity. Qed.

Lemma emax_big : 1000000 <= 2 ^ emax.
Proof. apply Qle_bool_iff. vm_compute. reflexivity. Qed.

Lemma overflows_small (y : Q) : 0 <= y -> y <= 1000 -> overflows y = false.
Proof.
  intros H0 H1. unfold overflows.
  destruct (Qle_bool (2 ^ emax) (Qabs y)) eqn:E; [|reflexivity].
  apply Qle_bool_iff in E. rewrite Qabs_pos in E by assumption.
  pose proof emax_big. lra.
Qed.

(** On a non-negative number, truncation is the floor. *)
Lemma trunc_floor (y : Q) : 0 <= y -> trunc y = Qfloor y.
Proof.
  intros Hy. destruct y as [a b]. unfold trunc, Qfloor. simpl.
  apply Z.quot_div_nonneg; [|reflexivity].
  unfold Qle in Hy. simpl in Hy. lia.
Qed.

End Binary64Facts.

(* ================================================================= *)
(** ** Facts about the list built-ins *)

Module PyListFacts.

Import PyList.
Open Scope Z_scope.

Lemma fold_add_acc (l : list Z) (a : Z) :
  fold_left Z.add l a = a + sum l.
Proof.
  unfold sum. revert a.
  induction l as [|x l IH]; intros a; simpl; [lia|].
  rewrite (IH (a + x)), (IH x). lia.
Qed.

Lemma sum_cons (x : Z) (l : list Z) : sum (x :: l) = x + sum l.
Proof. unfold sum at 1. simpl. apply fold_add_acc. Qed.

Lemma sum_nil : sum [] = 0.
Proof. reflexivity. Qed.

Lemma sum_nonneg (l : list Z) : Forall (fun x => 0 <= x) l -> 0 <= sum l.
Proof.
  induction 1 as [|x l Hx _ IH]; [rewrite sum_nil; lia|].
  rewrite sum_cons. lia.
Qed.

Lemma sum_bounds_elements (l : list Z) :
  Forall (fun x => 0 <= x) l -> Forall (fun x => 0 <= x <= sum l) l.
Proof.
  induction 1 as [|x l Hx Hl IH]; constructor.
  - rewrite sum_cons. pose proof (sum_nonneg Hl). lia.
  - rewrite sum_cons. eapply Forall_impl; [|exact IH].
    simpl. intros; lia.
Qed.

Lemma sum_repeat (c : Z) (n : nat) : sum (repeat c n) = Z.of_nat n * c.
Proof.
  induction n as [|n IH]; [reflexivity|].
  cbn [repeat]. rewrite sum_cons, IH. lia.
Qed.

(** *** [max] and [index] *)

Lemma fold_max_spec (l : list Z) (x : Z) :
  let m := fold_left running_max l x in
  x <= m /\ Forall (fun y => y <= m) l /\ (m = x \/ In m l).
Proof.
  revert x. induction l as [|y l IH]; intros x; cbn zeta; simpl.
  - split; [lia|split; [constructor|now left]].
  - destruct (IH (running_max x y)) as (H1 & H2 & H3).
    assert (Hr : x <= running_max x y /\ y <= running_max x y
                 /\ (running_max x y = x \/ running_max x y = y)).
    { unfold running_max. destruct (Z.ltb_spec x y); lia. }
    destruct Hr as (Hx & Hy & Hxy).
    split; [|split].
    + lia.
    + constructor; [lia|assumption].
    + destruct H3 as [H3|H3]; [|now right; right].
      destruct Hxy as [E|E]; [left|right; left]; congruence.
Qed.

(** [max] of a non-empty list is an element that bounds every element. *)
Lemma max_spec (l : list Z) :
  l <> [] ->
  exists m, max l = Return m /\ In m l /\ Forall (fun y => y <= m) l.
Proof.
  destruct l as [|x l]; [congruence|]. intros _.
  destruct (fold_max_spec l x) as (H1 & H2 & H3).
  eexists. split; [reflexivity|]. split.
  - destruct H3 as [H3|H3]; [left; symmetry; exact H3|right; exact H3].
  - constructor; assumption.
Qed.

(** [index] returns the first position of an element of the list. *)
Lemma index_spec (x : Z) (l : list Z) :
  In x l ->
  exists i, index x l = Return i
            /\ nth_error l i = Some x
            /\ forall j y, (j < i)%nat -> nth_error l j = Some y -> y <> x.
Proof.
  induction l as [|y l IH]; intros Hin; [destruct Hin|].
  simpl. destruct (Z.eqb_spec y x) as [E|N].
  - exists O. subst. repeat split. intros j z Hj. lia.
  - destruct Hin as [E|Hin]; [congruence|].
    destruct (IH Hin) as (i & Hi & Hn & Hf).
    exists (S i). rewrite Hi. simpl. repeat split; [assumption|].
    intros [|j] z Hj Hz; simpl in Hz.
    + congruence.
    + apply (Hf j z); [lia|assumption].
Qed.

(** *** [add_at] *)

Lemma add_at_spec (l : list Z) (i : nat) (d x : Z) :
  nth_error l i = Some x ->
  exists l', add_at l i d = Return l'
             /\ List.length l' = List.length l
             /\ nth_error l' i = Some (x + d)
             /\ (forall j, j <> i -> nth_error l' j = nth_error l j)
             /\ sum l' = sum l + d.
Proof.
  revert i. induction l as [|y l IH]; intros [|i] Hn; simpl in Hn;
    try discriminate.
  - injection Hn as ->. eexists. split; [reflexivity|].
    repeat split.
    + intros [|j] Hj; [congruence|reflexivity].
    + rewrite !sum_cons. lia.
  - destruct (IH i Hn) as (l' & E & Hlen & Hi & Hj & Hs).
    exists (y :: l'). simpl. rewrite E. simpl.
    repeat split; try assumption.
    + now rewrite Hlen.
    + intros [|j] Hne; [reflexivity|]. simpl. apply Hj. congruence.
    + rewrite !sum_cons. lia.
Qed.

Lemma add_at_out_of_range (l : list Z) (i : nat) (d : Z) :
  nth_error l i = None -> add_at l i d = Raise IndexError.
Proof.
  revert i. induction l as [|y l IH]; intros [|i] Hn; simpl in *;
    try reflexivity; try discriminate.
  now rewrite IH.
Qed.

(** *** [getitem] *)

Lemma getitem_in_range {A} (l : list A) (i : Z) :
  0 <= i < Z.of_nat (List.length l) ->
  exists a, getitem l i = Return a /\ nth_error l (Z.to_nat i) = Some a.
Proof.
  intros Hi. unfold getitem.
  destruct (Z.ltb_spec i 0); [lia|].
  destruct (Z.leb_spec 0 i); [|lia].
  destruct (Z.ltb_spec i (Z.of_nat (List.length l))); [|lia].
  simpl.
  destruct (nth_error l (Z.to_nat i)) eqn:E; [eauto|].
  apply nth_error_None in E. lia.
Qed.

Lemma getitem_length {A} (l : list A) :
  getitem l (Z.of_nat (List.length l)) = Raise IndexError.
Proof.
  unfold getitem.
  destruct (Z.ltb_spec (Z.of_nat (List.length l)) 0); [lia|].
  destruct (Z.ltb_spec (Z.of_nat (List.length l))
                       (Z.of_nat (List.length l))); [lia|].
  now rewrite andb_false_r.
Qed.

Lemma getitem_In {A} (l : list A) (i : Z) (a : A) :
  getitem l i = Return a -> In a l.
Proof.
  unfold getitem.
  destruct (_ && _); [|discriminate].
  destruct (nth_error l _) eqn:E; [|discriminate].
  intros [= <-]. eapply nth_error_In; eassumption.
Qed.

End PyListFacts.

(* ================================================================= *)
(** ** The weight table *)

Module TableFacts.

Import Binary64 Binary64Facts PyList PyListFacts Qrng Spec.
Open Scope Z_scope.

(** Two roundings in a row, then a floor that is at least 1. *)
Lemma two_roundings (x q p t r : Q) :
  (0 <= x -> 0 <= t -> t <= 1 # 1000000000000000000000000000000 ->
   q <= x * (1 + u) + t -> p <= q * 255 * (1 + u) + t ->
   r <= p -> 1 <= r -> r <= (255255 # 1000) * x)%Q.
Proof. unfold u. intros. lra. Qed.

(** For [0 <= w <= total] no exception is raised, and the two roundings
    push the entry above [255 * w / total] by a factor of at most
    [1.001]. *)
Lemma scaled_valid (total w : Z) :
  0 < total -> 0 <= w <= total ->
  scaled total w = Return (floor_scaled total w)
  /\ 0 <= floor_scaled total w
  /\ (inject_Z (floor_scaled total w) * inject_Z total
      <= (255255 # 1000) * inject_Z w)%Q.
Proof.
  intros HT [Hw0 HwT]. unfold scaled, truediv, floor_scaled.
  destruct (Z.eqb_spec total 0) as [->|_]; [lia|].
  assert (HTq : (0 < inject_Z total)%Q) by (now rewrite <- (Zlt_Qlt 0)).
  assert (Hwq : (0 <= inject_Z w)%Q) by (now rewrite <- (Zle_Qle 0)).
  assert (HwTq : (inject_Z w <= inject_Z total)%Q) by (now rewrite <- Zle_Qle).
  set (x := (inject_Z w / inject_Z total)%Q).
  assert (Hx0 : (0 <= x)%Q).
  { apply Qle_shift_div_l; [assumption|]. lra. }
  assert (Hx1 : (x <= 1)%Q).
  { apply Qle_shift_div_r; [assumption|]. lra. }
  assert (HxT : (x * inject_Z total == inject_Z w)%Q).
  { unfold x. field. lra. }
  destruct (RN_bounds Hx0) as [Hq0 Hq1].
  pose proof emin_small as Ht. pose proof (two_pow_pos emin) as Ht0.
  set (t := (2 ^ emin)%Q) in *.
  assert (Hu : (u <= 1 # 1000)%Q) by (unfold u; lra).
  assert (Hu0 : (0 <= u)%Q) by (unfold u; lra).
  set (q := RN x) in *.
  assert (Hq2 : (q <= 1000)%Q) by nra.
  rewrite (overflows_small Hq0 Hq2).
  cbn [bind]. unfold mul. change (inject_Z 255) with 255%Q.
  assert (Hy0 : (0 <= q * 255)%Q) by lra.
  destruct (RN_bounds Hy0) as [Hp0 Hp1].
  fold t in Hp1.
  set (p := RN (q * 255)) in *.
  assert (Hp2 : (p <= 1000)%Q) by nra.
  rewrite (overflows_small Hp0 Hp2).
  cbn [int]. rewrite (trunc_floor Hp0).
  pose proof (Qfloor_le p) as Hr.
  assert (Hr0 : 0 <= Qfloor p).
  { change 0 with (Qfloor 0). now apply Qfloor_resp_le. }
  split; [reflexivity|]. split; [assumption|].
  destruct (Z.eq_dec (Qfloor p) 0) as [E|N].
  - rewrite E. change (inject_Z 0) with 0%Q.
    rewrite Qmult_0_l. apply Qmult_le_0_compat; [discriminate|assumption].
  - assert (H1 : (1 <= inject_Z (Qfloor p))%Q).
    { rewrite <- (Zle_Qle 1). lia. }
    apply Qle_trans with ((255255 # 1000) * x * inject_Z total)%Q.
    + apply Qmult_le_compat_r; [|now apply Qlt_le_weak].
      apply (@two_roundings x q p t); try assumption;
        now apply Qlt_le_weak.
    + rewrite <- Qmult_assoc, HxT. apply Qle_refl.
Qed.

(** *** Agreement with the exact quotient

    The float computation of line 38 gives the floor of the exact value
    [255 * w / total] as long as the total stays below [2^43]: the two
    roundings move the value by less than [2^-43], and an exact value that
    is not an integer is at least [1 / total] away from the integers.  The
    256 cases where the exact value is an integer are checked one by
    one. *)

Lemma exact_multiples_ok (k : Z) :
  0 <= k <= 255 -> Qfloor (RN (RN (inject_Z k / 255) * 255)) = k.
Proof.
  intros Hk.
  assert (H : exact_multiples = true) by (vm_compute; reflexivity).
  unfold exact_multiples in H. rewrite forallb_forall in H.
  apply Z.eqb_eq. apply H.
  apply in_map_iff. exists (Z.to_nat k). split; [lia|].
  apply in_seq. lia.
Qed.

Lemma Qfloor_unique (p : Q) (k : Z) :
  (inject_Z k <= p -> p < inject_Z k + 1 -> Qfloor p = k)%Q.
Proof.
  intros Hl Hu.
  pose proof (Qfloor_le p) as H1. pose proof (Qlt_floor p) as H2.
  rewrite inject_Z_plus in H2. change (inject_Z 1) with 1%Q in H2.
  assert (Ha : (inject_Z (Qfloor p) < inject_Z (k + 1))%Q).
  { rewrite inject_Z_plus. change (inject_Z 1) with 1%Q. lra. }
  assert (Hb : (inject_Z k < inject_Z (Qfloor p + 1))%Q).
  { rewrite inject_Z_plus. change (inject_Z 1) with 1%Q. lra. }
  rewrite <- Zlt_Qlt in Ha, Hb. lia.
Qed.

(** Two roundings in a row around a value that keeps a distance [g] from
    the integers [k] and [k + 1]. *)
Lemma two_roundings_between (x q p t g k rho : Q) :
  (0 <= x -> x <= 1 -> 0 <= t -> t <= 1 # 1000000000000000000000000000000 ->
   x * (1 - u) - t <= q -> q <= x * (1 + u) + t ->
   q * 255 * (1 - u) - t <= p -> p <= q * 255 * (1 + u) + t ->
   255 * x == k + rho -> g <= rho -> rho <= 1 - g ->
   1 # 8796093022208 <= g ->
   k <= p /\ p < k + 1)%Q.
Proof. unfold u. intros. split; lra. Qed.

Lemma floor_scaled_exact (total w : Z) :
  0 < total <= 2 ^ 43 -> 0 <= w <= total ->
  floor_scaled total w = (255 * w) / total.
Proof.
  intros [HT HTb] [Hw0 HwT]. unfold floor_scaled.
  assert (HTq : (0 < inject_Z total)%Q) by (now rewrite <- (Zlt_Qlt 0)).
  pose proof (Z.div_mod (255 * w) total ltac:(lia)) as Hdm.
  pose proof (Z.mod_pos_bound (255 * w) total HT) as Hr.
  set (k := (255 * w) / total) in *. set (r := (255 * w) mod total) in *.
  assert (Hk : 0 <= k <= 255).
  { split; [apply Z.div_pos; lia|]. apply Z.div_le_upper_bound; lia. }
  assert (Hq : (255 * inject_Z w == inject_Z total * inject_Z k + inject_Z r)%Q).
  { rewrite <- inject_Z_mult, <- inject_Z_plus.
    change 255%Q with (inject_Z 255). rewrite <- inject_Z_mult.
    now rewrite Hdm. }
  set (x := (inject_Z w / inject_Z total)%Q).
  assert (HxT : (x * inject_Z total == inject_Z w)%Q).
  { unfold x. field. lra. }
  destruct (Z.eq_dec r 0) as [Hr0|Hr0].
  - (* the exact value is the integer [k] *)
    assert (E : (x == inject_Z k / 255)%Q).
    { rewrite Hr0 in Hq. change (inject_Z 0) with 0%Q in Hq.
      unfold x. field_simplify_eq; [|lra]. lra. }
    rewrite (Qfloor_comp _ (RN (RN (inject_Z k / 255) * 255))).
    + now apply exact_multiples_ok.
    + apply RN_comp. now rewrite (RN_comp E).
  - assert (Hwq : (0 <= inject_Z w)%Q) by (now rewrite <- (Zle_Qle 0)).
    assert (HwTq : (inject_Z w <= inject_Z total)%Q)
      by (now rewrite <- Zle_Qle).
    assert (Hx0 : (0 <= x)%Q).
    { apply Qle_shift_div_l; [assumption|]. lra. }
    assert (Hx1 : (x <= 1)%Q).
    { apply Qle_shift_div_r; [assumption|]. lra. }
    destruct (RN_bounds Hx0) as [Hq0 Hq1]. pose proof (RN_lower Hx0) as Hq2.
    set (q := RN x) in *.
    assert (Hy0 : (0 <= q * 255)%Q) by lra.
    destruct (RN_bounds Hy0) as [Hp0 Hp1]. pose proof (RN_lower Hy0) as Hp2.
    set (p := RN (q * 255)) in *.
    pose proof emin_small as Ht. pose proof (two_pow_pos emin) as Ht0.
    set (t := (2 ^ emin)%Q) in *.
    set (g := (1 / inject_Z total)%Q).
    set (rho := (inject_Z r / inject_Z total)%Q).
    assert (HgT : (g * inject_Z total == 1)%Q) by (unfold g; field; lra).
    assert (HrT : (rho * inject_Z total == inject_Z r)%Q)
      by (unfold rho; field; lra).
    assert (Hrq : (1 <= inject_Z r)%Q) by (rewrite <- (Zle_Qle 1); lia).
    assert (Hrq' : (inject_Z r <= inject_Z total - 1)%Q).
    { change 1%Q with (inject_Z 1). unfold Qminus.
      rewrite <- inject_Z_opp, <- inject_Z_plus, <- Zle_Qle. lia. }
    assert (Hbq : (inject_Z total <= 8796093022208)%Q).
    { change 8796093022208%Q with (inject_Z (2 ^ 43)). now rewrite <- Zle_Qle. }
    destruct (@two_roundings_between x q p t g (inject_Z k) rho) as [Hl Hu];
      try assumption; try (now apply Qlt_le_weak).
    + apply (Qmult_inj_r _ _ (inject_Z total)); [lra|].
      rewrite Qmult_plus_distr_l, HrT, <- Qmult_assoc, HxT. lra.
    + apply (Qmult_le_r _ _ (inject_Z total)); [assumption|]. lra.
    + apply (Qmult_le_r _ _ (inject_Z total)); [assumption|]. lra.
    + apply (Qmult_le_r _ _ (inject_Z total)); [assumption|].
      rewrite HgT. lra.
    + now apply Qfloor_unique.
Qed.

(** Beyond that bound the float computation can leave the exact floor:
    here the exact value is just below 130. *)
Example float_floor_above_exact_floor :
  floor_scaled 411080767770470277 209570587490827984 = 130
  /\ (255 * 209570587490827984) / 411080767770470277 = 129.
Proof. split; vm_compute; reflexivity. Qed.

(** The comprehension of line 38 over a list of weights between [0] and
    [total]. *)
Lemma comprehension_scaled (total : Z) (ws : list Z) :
  0 < total -> Forall (fun w => 0 <= w <= total) ws ->
  comprehension (scaled total) ws = Return (map (floor_scaled total) ws)
  /\ Forall (fun r => 0 <= r) (map (floor_scaled total) ws)
  /\ (inject_Z (sum (map (floor_scaled total) ws)) * inject_Z total
      <= (255255 # 1000) * inject_Z (sum ws))%Q.
Proof.
  intros HT. induction 1 as [|w ws Hw _ IH].
  - simpl. split; [reflexivity|]. split; [constructor|].
    rewrite sum_nil. change (inject_Z 0) with 0%Q. lra.
  - destruct IH as (E & Hpos & Hsum).
    destruct (scaled_valid HT Hw) as (Ew & Hw0 & Hwb).
    cbn [comprehension map]. rewrite Ew, E. cbn [bind].
    split; [reflexivity|]. split; [constructor; assumption|].
    rewrite !sum_cons, !inject_Z_plus. lra.
Qed.

(** Lines 37-38 on non-negative weights with a positive sum: every entry
    is computed, none is negative, and together they do not exceed 255. *)
Lemma raw_weights_valid (ws : list Z) :
  Forall (fun w => 0 <= w) ws -> 0 < sum ws ->
  raw_weights ws = Return (map (floor_scaled (sum ws)) ws)
  /\ Forall (fun r => 0 <= r) (map (floor_scaled (sum ws)) ws)
  /\ sum (map (floor_scaled (sum ws)) ws) <= 255.
Proof.
  intros Hpos Hsum.
  destruct (comprehension_scaled Hsum (sum_bounds_elements Hpos))
    as (E & Hr & Hb).
  split; [exact E|]. split; [exact Hr|].
  set (R := sum (map (floor_scaled (sum ws)) ws)) in *.
  assert (HTq : (0 < inject_Z (sum ws))%Q) by (now rewrite <- (Zlt_Qlt 0)).
  assert (Hq : (inject_Z R <= 255255 # 1000)%Q).
  { apply Qmult_le_r with (z := inject_Z (sum ws)); assumption. }
  unfold Qle in Hq. simpl in Hq. lia.
Qed.

(** Lines 37-45 on the same inputs. *)
Lemma normalized_weights_valid (ws : list Z) :
  Forall (fun w => 0 <= w) ws -> 0 < sum ws ->
  exists nw,
    normalized_weights ws = Return nw
    /\ List.length nw = List.length ws
    /\ Forall (fun r => 0 <= r) nw
    /\ sum nw = 255.
Proof.
  intros Hpos Hsum.
  destruct (raw_weights_valid Hpos Hsum) as (E & Hr & Hb).
  unfold normalized_weights. rewrite E. cbn [bind].
  set (raw := map (floor_scaled (sum ws)) ws) in *.
  assert (Hlen : List.length raw = List.length ws) by apply length_map.
  unfold adjustment.
  destruct (Z.gtb_spec (255 - sum raw) 0) as [Hadj|Hadj].
  - assert (Hne : ws <> []) by (intros ->; rewrite sum_nil in Hsum; lia).
    destruct (max_spec Hne) as (m & Em & Hin & _).
    destruct (index_spec _ _ Hin) as (i & Ei & Hi & _).
    unfold max_idx. rewrite Em. cbn [bind]. rewrite Ei. cbn [bind].
    assert (Hlt : (i < List.length raw)%nat).
    { rewrite Hlen. apply nth_error_Some. congruence. }
    destruct (nth_error raw i) as [x|] eqn:Ex;
      [|apply nth_error_None in Ex; lia].
    destruct (@add_at_spec raw i (255 - sum raw) x Ex)
      as (nw & Enw & Hl & Hx & Hother & Hs).
    exists nw. split; [exact Enw|]. split; [congruence|].
    split; [|lia].
    apply Forall_forall. intros y Hy.
    apply In_nth_error in Hy. destruct Hy as [j Hj].
    rewrite Forall_forall in Hr.
    destruct (Nat.eq_dec j i) as [->|Hji].
    + assert (0 <= x) by (apply Hr; eapply nth_error_In; eassumption).
      assert (y = x + (255 - sum raw)) by congruence. lia.
    + rewrite (Hother j Hji) in Hj. apply Hr.
      eapply nth_error_In; eassumption.
  - exists raw. split; [reflexivity|]. split; [assumption|].
    split; [assumption|lia].
Qed.

(** *** The choice map *)

Section ChoiceMap.

Context {A : Type}.

Lemma fold_extend (l : list (A * Z)) (acc : list A) :
  fold_left (fun cm cw => (cm ++ slots cw)%list) l acc
  = (acc ++ flat_map slots l)%list.
Proof.
  revert acc. induction l as [|cw l IH]; intros acc; simpl.
  - now rewrite app_nil_r.
  - rewrite IH. now rewrite app_assoc.
Qed.

(** The loop of lines 48-50 lays the blocks of slots end to end. *)
Lemma choice_map_flat (choices : list A) (nw : list Z) :
  choice_map choices nw = flat_map slots (combine choices nw).
Proof. unfold choice_map. apply (fold_extend _ []). Qed.

Lemma choice_map_length (choices : list A) (nw : list Z) :
  List.length choices = List.length nw ->
  Forall (fun r => 0 <= r) nw ->
  Z.of_nat (List.length (choice_map choices nw)) = sum nw.
Proof.
  rewrite choice_map_flat. revert nw.
  induction choices as [|c cs IH]; intros [|n nw] Hlen Hpos;
    simpl in Hlen; try discriminate.
  - reflexivity.
  - inversion Hpos as [|? ? Hn Hnw]; subst.
    cbn [combine flat_map]. rewrite length_app, Nat2Z.inj_add.
    rewrite IH by (assumption || congruence).
    unfold slots, times. cbn [fst snd].
    rewrite repeat_length, sum_cons. lia.
Qed.

(** A label occupies a slot exactly when one of its positions has a
    positive entry in the table. *)
Lemma choice_map_In (choices : list A) (nw : list Z) (c : A) :
  In c (choice_map choices nw) <->
  exists i n, nth_error choices i = Some c
              /\ nth_error nw i = Some n /\ 0 < n.
Proof.
  rewrite choice_map_flat. revert nw.
  induction choices as [|c' cs IH]; intros nw.
  - simpl. split; [intros []|].
    intros (i & n & Hi & _). destruct i; discriminate.
  - destruct nw as [|n' nw].
    + simpl. split; [intros []|].
      intros (i & n & _ & Hi & _). destruct i; discriminate.
    + cbn [combine flat_map]. rewrite in_app_iff, IH.
      unfold slots, times. cbn [fst snd]. split.
      * intros [Hrep|(i & n & Hi & Hn & Hpos)].
        -- pose proof (repeat_spec _ _ _ Hrep) as ->.
           exists O, n'. repeat split.
           destruct n'; simpl in Hrep; try lia; destruct Hrep.
        -- exists (S i), n. auto.
      * intros ([|i] & n & Hi & Hn & Hpos); simpl in Hi, Hn.
        -- left. injection Hi as ->. injection Hn as ->.
           destruct (Z.to_nat n) eqn:E; [lia|]. now left.
        -- right. exists i, n. auto.
Qed.

End ChoiceMap.

End TableFacts.

(* ================================================================= *)
(** ** Properties of the specification *)

Import Binary64 PyList Json Http Qrng Spec.
Import Binary64Facts PyListFacts TableFacts.
Open Scope Z_scope.
Open Scope string_scope.

Lemma comprehension_length {A B} (f : A -> result B) (xs : list A) ys :
  comprehension f xs = Return ys -> List.length ys = List.length xs.
Proof.
  revert ys. induction xs as [|x xs IH]; intros ys; simpl.
  - now intros [= <-].
  - destruct (f x); [|discriminate]. simpl.
    destruct (comprehension f xs); [|discriminate]. simpl.
    intros [= <-]. simpl. f_equal. now apply IH.
Qed.

Lemma effective_weights_valid {A} (choices : list A) weights :
  valid_input choices weights ->
  valid_weights (effective_weights choices weights)
  /\ List.length (effective_weights choices weights) = List.length choices.
Proof.
  intros [Hne Hw]. destruct weights as [ws|]; simpl.
  - destruct Hw as [Hlen Hv]. now split.
  - unfold times. rewrite Nat2Z.id. split; [split|].
    + apply Forall_forall. intros x Hx.
      apply repeat_spec in Hx. lia.
    + rewrite sum_repeat. destruct choices; [congruence|]. simpl. lia.
    + apply repeat_length.
Qed.

(** On a valid input the table is built, and the choice map has exactly
    255 slots. *)
Lemma build_valid {A} (choices : list A) weights :
  valid_input choices weights ->
  exists nw,
    normalized_weights (effective_weights choices weights) = Return nw
    /\ build choices weights = Return (choice_map choices nw)
    /\ List.length (choice_map choices nw) = 255%nat.
Proof.
  intros Hv. destruct (effective_weights_valid Hv) as [[Hpos Hsum] Hlen].
  destruct (normalized_weights_valid Hpos Hsum) as (nw & E & Hl & Hnn & Hs).
  exists nw. split; [exact E|]. unfold build. rewrite E. cbn [bind].
  split; [reflexivity|].
  assert (H : Z.of_nat (List.length (choice_map choices nw)) = 255).
  { rewrite choice_map_length; [assumption|congruence|assumption]. }
  lia.
Qed.



(** C6. When the deficit is positive it is added, whole, to one entry: the
    one at the first position whose source weight is the maximum of the
    weights; every other entry is unchanged.  When all the weights are
    equal this position is 0. *)
Theorem deficit_goes_to_first_maximum (ws raw : list Z) :
  ws <> [] ->
  raw_weights ws = Return raw ->
  0 < adjustment raw ->
  exists i m r nw,
    nth_error ws i = Some m
    /\ Forall (fun y => y <= m) ws
    /\ (forall j y, (j < i)%nat -> nth_error ws j = Some y -> y < m)
    /\ nth_error raw i = Some r
    /\ normalized_weights ws = Return nw
    /\ nth_error nw i = Some (r + adjustment raw)
    /\ (forall j, j <> i -> nth_error nw j = nth_error raw j)
    /\ List.length nw = List.length raw
    /\ ((forall y, In y ws -> y = m) -> i = O).
Proof.
  intros Hne Eraw Hadj.
  destruct (max_spec Hne) as (m & Em & Hin & Hmax).
  destruct (index_spec _ _ Hin) as (i & Ei & Hi & Hfirst).
  assert (Hlen : List.length raw = List.length ws).
  { unfold raw_weights in Eraw. now apply comprehension_length in Eraw. }
  assert (Hlt : (i < List.length raw)%nat).
  { rewrite Hlen. apply nth_error_Some. congruence. }
  destruct (nth_error raw i) as [r|] eqn:Er;
    [|apply nth_error_None in Er; lia].
  destruct (@add_at_spec raw i (adjustment raw) r Er)
    as (nw & Enw & Hl & Hx & Hother & _).
  exists i, m, r, nw.
  split; [exact Hi|]. split; [exact Hmax|]. split.
  { intros j y Hj Hy. rewrite Forall_forall in Hmax.
    assert (y <= m) by (apply Hmax; eapply nth_error_In; eassumption).
    assert (y <> m) by (eapply Hfirst; eassumption). lia. }
  split; [exact Er|]. split.
  { unfold normalized_weights. rewrite Eraw. cbn [bind].
    destruct (Z.gtb_spec (adjustment raw) 0); [|lia].
    unfold max_idx. rewrite Em. cbn [bind]. rewrite Ei. exact Enw. }
  split; [exact Hx|]. split; [exact Hother|]. split; [exact Hl|].
  intros Hall. destruct i as [|i]; [reflexivity|exfalso].
  destruct ws as [|y ws]; [congruence|].
  apply (Hfirst O y); [lia|reflexivity|].
  apply Hall. now left.
Qed.

Lemma deficit_goes_to_first_maximum_witness :
  exists i m r nw,
    nth_error [1; 1] i = Some m
    /\ Forall (fun y => y <= m) [1; 1]
    /\ (forall j y, (j < i)%nat -> nth_error [1; 1] j = Some y -> y < m)
    /\ nth_error [127; 127] i = Some r
    /\ normalized_weights [1; 1] = Return nw
    /\ nth_error nw i = Some (r + adjustment [127; 127])
    /\ (forall j, j <> i -> nth_error nw j = nth_error [127; 127] j)
    /\ List.length nw = List.length [127; 127]
    /\ ((forall y, In y [1; 1] -> y = m) -> i = O).
Proof.
  apply (@deficit_goes_to_first_maximum [1; 1] [127; 127]).
  - discriminate.
  - vm_compute. reflexivity.
  - reflexivity.
Defined.

(** *** The lookup of the random byte *)

(** [quantum_choice] once the choice map is built: one request, then the
    lookup. *)
Lemma quantum_choice_built {A} (choices : list A) weights cm (w : world) :
  build choices weights = Return cm ->
  quantum_choice choices weights w
  = (random_byte <- fst (quantum_random_byte w) ;; subscript cm random_byte,
     World (service w) (S (issued w))).
Proof.
  intros E. unfold quantum_choice. rewrite E.
  unfold quantum_random_byte, get. reflexivity.
Qed.

(** Whatever [quantum_choice] returns occupies a slot of the choice map. *)
Lemma quantum_choice_returns_slot {A} (choices : list A) weights w (c : A) :
  fst (quantum_choice choices weights w) = Return c ->
  exists cm, build choices weights = Return cm /\ In c cm.
Proof.
  destruct (build choices weights) as [cm|e] eqn:E.
  - rewrite (quantum_choice_built _ _ w E). cbn [fst].
    destruct (fst (quantum_random_byte w)) as [v|]; [|discriminate].
    cbn [bind]. intros H. exists cm. split; [reflexivity|].
    destruct v; try discriminate; simpl in H;
      eapply getitem_In; eassumption.
  - unfold quantum_choice. rewrite E. discriminate.
Qed.

(** On every valid input the byte 255 falls outside the choice map, which
    has the 255 slots 0..254. *)
Lemma last_byte_out_of_range {A} (choices : list A) weights (w : world) :
  valid_input choices weights ->
  fst (quantum_random_byte w) = Return (JInt 255) ->
  fst (quantum_choice choices weights w) = Raise IndexError.
Proof.
  intros Hv Hb. destruct (build_valid Hv) as (nw & _ & E & Hlen).
  rewrite (quantum_choice_built _ _ w E). cbn [fst]. rewrite Hb.
  cbn [bind subscript].
  replace 255 with (Z.of_nat (List.length (choice_map choices nw))) by lia.
  apply getitem_length.
Qed.

(** The bytes 0..254 select one of the choices. *)
Lemma bytes_below_255_defined {A} (choices : list A) weights (w : world) b :
  valid_input choices weights ->
  0 <= b < 255 ->
  fst (quantum_random_byte w) = Return (JInt b) ->
  exists c, fst (quantum_choice choices weights w) = Return c /\ In c choices.
Proof.
  intros Hv Hr Hb. destruct (build_valid Hv) as (nw & _ & E & Hlen).
  rewrite (quantum_choice_built _ _ w E). cbn [fst]. rewrite Hb.
  cbn [bind subscript].
  destruct (@getitem_in_range A (choice_map choices nw) b) as (c & Ec & Hn);
    [lia|].
  exists c. split; [exact Ec|].
  apply nth_error_In in Hn. apply choice_map_In in Hn.
  destruct Hn as (i & n & Hi & _). eapply nth_error_In; eassumption.
Qed.

(** C1. The claim fails on the code: for the single choice ["solo"] with no
    weights the choice map holds 255 slots, so the bytes 0 and 254 give
    "solo" while the byte 255 is out of range. *)
Theorem solo_byte_255_out_of_range :
  build ["solo"] None = Return (repeat "solo" 255)
  /\ fst (quantum_choice ["solo"] None (byte_service 0)) = Return "solo"
  /\ fst (quantum_choice ["solo"] None (byte_service 254)) = Return "solo"
  /\ fst (quantum_choice ["solo"] None (byte_service 255)) = Raise IndexError.
Proof. vm_compute. repeat split. Qed.

(** C2. For ["apple"; "banana"; "cherry"] with weights [1; 2; 3] the table
    is [42; 85; 127] before and [42; 85; 128] after the adjustment; the
    byte 0 gives "apple" and the byte 127 gives "cherry", but the byte 255
    is out of range instead of giving "cherry". *)
Theorem fruit_scenario_byte_255_out_of_range :
  let fruits := ["apple"; "banana"; "cherry"] in
  let weights := [1; 2; 3] in
  raw_weights weights = Return [42; 85; 127]
  /\ normalized_weights weights = Return [42; 85; 128]
  /\ fst (quantum_choice fruits (Some weights) (byte_service 0))
     = Return "apple"
  /\ fst (quantum_choice fruits (Some weights) (byte_service 127))
     = Return "cherry"
  /\ fst (quantum_choice fruits (Some weights) (byte_service 254))
     = Return "cherry"
  /\ fst (quantum_choice fruits (Some weights) (byte_service 255))
     = Raise IndexError.
Proof. vm_compute. repeat split. Qed.

(** C9. On a valid input, a choice whose entries in the table are 0 before
    the adjustment, and none of whose positions receives the deficit, has
    entries 0 in the final table, occupies no slot of the choice map and is
    never returned. *)
Theorem zero_weight_choice_never_selected {A} (choices : list A) weights raw
  (c : A) :
  valid_input choices weights ->
  raw_weights (effective_weights choices weights) = Return raw ->
  (forall i, nth_error choices i = Some c ->
             nth_error raw i = Some 0
             /\ (0 < adjustment raw ->
                 max_idx (effective_weights choices weights) <> Return i)) ->
  exists nw,
    normalized_weights (effective_weights choices weights) = Return nw
    /\ (forall i, nth_error choices i = Some c -> nth_error nw i = Some 0)
    /\ ~ In c (choice_map choices nw)
    /\ forall w, fst (quantum_choice choices weights w) <> Return c.
Proof.
  intros Hv Eraw Hzero.
  destruct (build_valid Hv) as (nw & Enw & Eb & _).
  exists nw. split; [exact Enw|].
  assert (Hnw : forall i, nth_error choices i = Some c ->
                          nth_error nw i = Some 0).
  { intros i Hi. destruct (Hzero i Hi) as [Hr Hmax].
    unfold normalized_weights in Enw. rewrite Eraw in Enw. cbn [bind] in Enw.
    destruct (Z.gtb_spec (adjustment raw) 0) as [Hadj|Hadj].
    - destruct (max_idx (effective_weights choices weights)) as [k|] eqn:Ek;
        [|discriminate].
      cbn [bind] in Enw.
      assert (Hk : k <> i) by (intros ->; now apply Hmax).
      destruct (nth_error raw k) as [x|] eqn:Ex.
      + destruct (@add_at_spec raw k (adjustment raw) x Ex)
          as (nw' & E' & _ & _ & Hother & _).
        assert (nw' = nw) by congruence. subst nw'.
        rewrite Hother by congruence. exact Hr.
      + rewrite (@add_at_out_of_range raw k (adjustment raw) Ex) in Enw.
        discriminate.
    - injection Enw as <-. exact Hr. }
  split; [exact Hnw|].
  assert (Hnot : ~ In c (choice_map choices nw)).
  { intros Hin. apply choice_map_In in Hin.
    destruct Hin as (i & n & Hi & Hn & Hpos).
    rewrite (Hnw i Hi) in Hn. injection Hn as <-. lia. }
  split; [exact Hnot|].
  intros w Hret. apply quantum_choice_returns_slot in Hret.
  destruct Hret as (cm & Ecm & Hin).
  rewrite Eb in Ecm. injection Ecm as <-. contradiction.
Qed.

Lemma zero_weight_choice_never_selected_witness :
  exists nw,
    normalized_weights (effective_weights ["a"; "b"; "c"] (Some [0; 1; 1]))
    = Return nw
    /\ (forall i, nth_error ["a"; "b"; "c"] i = Some "a" ->
                  nth_error nw i = Some 0)
    /\ ~ In "a" (choice_map ["a"; "b"; "c"] nw)
    /\ forall w,
         fst (quantum_choice ["a"; "b"; "c"] (Some [0; 1; 1]) w) <> Return "a".
Proof.
  apply (@zero_weight_choice_never_selected
           string ["a"; "b"; "c"] (Some [0; 1; 1]) [0; 127; 127] "a").
  - split; [discriminate|]. split; [reflexivity|].
    split; [repeat constructor; lia|reflexivity].
  - vm_compute. reflexivity.
  - intros [|[|[|i]]] Hi; try discriminate Hi.
    + split; [reflexivity|]. intros _. vm_compute. discriminate.
    + destruct i; discriminate Hi.
Defined.

(** *** The random byte source *)






(** Payloads outside the premises of C7 leave [quantum_random_byte] through
    other exceptions. *)
Example payload_not_a_dict :
  validate (JInt 5) = Raise TypeError
  /\ validate (JDict [("data", JInt 5)]) = Raise TypeError
  /\ validate (JDict [("data", JDict [("k", JInt 5)])]) = Raise KeyError
  /\ validate (JDict [("data", JStr "7")]) = Return (JStr "7").
Proof. repeat split. Qed.




(** *** Failures *)

(** C4, as stated, fails: with one weight for two choices, or with a
    negative weight, [quantum_choice] issues the request and returns a
    choice; with no choice but one weight it fails only after the request. *)
Lemma invalid_arguments_not_rejected :
  let w := byte_service 0 in
  ~ fails_before_request ["a"; "b"] (Some [1]) w
  /\ quantum_choice ["a"; "b"] (Some [1]) w
     = (Return "a", World (service w) 1)
  /\ quantum_choice ["a"; "b"] (Some [-1; 2]) w
     = (Return "b", World (service w) 1)
  /\ quantum_choice (@nil string) (Some [1]) w
     = (Raise IndexError, World (service w) 1).
Proof.
  cbv zeta. split; [|vm_compute; repeat split].
  intros [e He]. vm_compute in He. discriminate He.
Qed.

(** C4, amended.  When there is no weight at all (no choice and the weights
    omitted, or an empty list of weights), or when the weights sum to zero
    (all of them zero, in particular), [quantum_choice] raises before any
    request is issued: [ValueError] from [max] of an empty list in the
    first case, [ZeroDivisionError] in the second. *)
Theorem no_weight_or_zero_sum_fails_before_request {A} (choices : list A)
  weights (w : world) :
  effective_weights choices weights = []
  \/ sum (effective_weights choices weights) = 0 ->
  exists e,
    quantum_choice choices weights w = (Raise e, w)
    /\ (e = ValueError_max_empty \/ e = ZeroDivisionError).
Proof.
  intros H. unfold quantum_choice, build, normalized_weights, raw_weights.
  destruct (effective_weights choices weights) as [|x ws] eqn:E.
  - exists ValueError_max_empty. split; [reflexivity|now left].
  - destruct H as [H|H]; [discriminate|].
    exists ZeroDivisionError. rewrite H. split; [reflexivity|now right].
Qed.

Lemma no_weight_or_zero_sum_fails_before_request_witness :
  exists e,
    quantum_choice ["a"; "b"] (Some [0; 0]) (byte_service 0)
    = (Raise e, byte_service 0)
    /\ (e = ValueError_max_empty \/ e = ZeroDivisionError).
Proof.
  apply (@no_weight_or_zero_sum_fails_before_request
           string ["a"; "b"] (Some [0; 0]) (byte_service 0)).
  right. reflexivity.
Defined.

(** A 4xx or 5xx answer becomes the [ValueError] of line 19. *)
Lemma error_status_raises (w : world) status body :
  service w (issued w) = Response status body ->
  is_error_status status = true ->
  fst (quantum_random_byte w) = Raise (ValueError_fetch (HTTPError status)).
Proof.
  intros Hs He. unfold quantum_random_byte, get. cbn [fst].
  now rewrite Hs, He.
Qed.

(** C8. When the choice table has been built and the random byte source
    fails, [quantum_choice] fails with the same exception, and exactly one
    request has been issued: nothing is retried and nothing of the table
    remains. *)
Theorem source_failure_propagates {A} (choices : list A) weights cm
  (w : world) e :
  build choices weights = Return cm ->
  fst (quantum_random_byte w) = Raise e ->
  quantum_choice choices weights w
  = (Raise e, World (service w) (S (issued w))).
Proof.
  intros Eb Ef. rewrite (quantum_choice_built _ _ w Eb). now rewrite Ef.
Qed.

Lemma source_failure_propagates_witness :
  quantum_choice ["apple"; "banana"; "cherry"] (Some [1; 2; 3]) failing_service
  = (Raise (ValueError_fetch (HTTPError 500)),
     World (service failing_service) (S (issued failing_service))).
Proof.
  apply (@source_failure_propagates
           string ["apple"; "banana"; "cherry"] (Some [1; 2; 3])
           (choice_map ["apple"; "banana"; "cherry"] [42; 85; 128])
           failing_service (ValueError_fetch (HTTPError 500))).
  - vm_compute. reflexivity.
  - reflexivity.
Defined.

(** C10. The result of [quantum_choice] is a function of the choices, the
    weights and the value returned by the random byte source: two runs on
    the same arguments, in any two worlds where the source returns the same
    value, give the same result. *)
Theorem quantum_choice_deterministic {A} (choices : list A) weights
  (w1 w2 : world) v :
  fst (quantum_random_byte w1) = Return v ->
  fst (quantum_random_byte w2) = Return v ->
  fst (quantum_choice choices weights w1)
  = fst (quantum_choice choices weights w2).
Proof.
  intros H1 H2.
  destruct (build choices weights) as [cm|e] eqn:E.
  - rewrite !(quantum_choice_built _ _ _ E). cbn [fst]. now rewrite H1, H2.
  - unfold quantum_choice. now rewrite E.
Qed.

Lemma quantum_choice_deterministic_witness :
  fst (quantum_choice ["apple"; "banana"; "cherry"] (Some [1; 2; 3])
         (byte_service 5))
  = fst (quantum_choice ["apple"; "banana"; "cherry"] (Some [1; 2; 3])
           other_service).
Proof.
  apply (@quantum_choice_deterministic
           string ["apple"; "banana"; "cherry"] (Some [1; 2; 3])
           (byte_service 5) other_service (JInt 5)); reflexivity.
Defined.

(* ================================================================= *)
(** ** Further properties of [quantum_choice] *)

Import Slots.

(** *** Indexing the choice map *)

(** [l[i]] raises exactly when [i] is outside [-len(l), len(l)). *)
Lemma getitem_spec {A} (l : list A) (i : Z) :
  let n := Z.of_nat (List.length l) in
  (- n <= i < n -> exists a, getitem l i = Return a /\ In a l)
  /\ (i < - n \/ n <= i -> getitem l i = Raise IndexError).
Proof.
  cbv zeta. unfold getitem. split.
  - intros Hi.
    destruct (Z.ltb_spec i 0) as [Hneg|Hpos].
    + destruct (@getitem_in_range A l (i + Z.of_nat (List.length l)))
        as (a & Ea & Hn); [lia|].
      unfold getitem in Ea.
      destruct (Z.ltb_spec (i + Z.of_nat (List.length l)) 0); [lia|].
      exists a. split; [exact Ea|]. eapply nth_error_In; eassumption.
    + destruct (@getitem_in_range A l i) as (a & Ea & Hn); [lia|].
      unfold getitem in Ea. destruct (Z.ltb_spec i 0); [lia|].
      exists a. split; [exact Ea|]. eapply nth_error_In; eassumption.
  - intros Hi.
    destruct (Z.ltb_spec i 0) as [Hneg|Hpos].
    + destruct (Z.leb_spec 0 (i + Z.of_nat (List.length l))); [|reflexivity].
      destruct (Z.ltb_spec (i + Z.of_nat (List.length l))
                           (Z.of_nat (List.length l))); [|reflexivity].
      lia.
    + destruct (Z.ltb_spec i (Z.of_nat (List.length l))); [lia|].
      now rewrite andb_false_r.
Qed.

Lemma sum_app (l1 l2 : list Z) : sum (l1 ++ l2) = sum l1 + sum l2.
Proof.
  induction l1 as [|x l1 IH]; [rewrite sum_nil; reflexivity|].
  cbn [app]. rewrite !sum_cons, IH. lia.
Qed.

Lemma offset_nonneg (nw : list Z) (i : nat) :
  Forall (fun r => 0 <= r) nw -> 0 <= offset nw i.
Proof.
  intros H. unfold offset. apply sum_nonneg. revert i.
  induction H as [|x l Hx _ IH]; intros [|i]; cbn [firstn];
    try constructor; auto.
Qed.

(** The slots of position [i] start at [offset nw i]. *)
Lemma choice_map_nth {A} (choices : list A) (nw : list Z) i c n k :
  Forall (fun r => 0 <= r) nw ->
  nth_error choices i = Some c ->
  nth_error nw i = Some n ->
  0 <= k < n ->
  nth_error (choice_map choices nw) (Z.to_nat (offset nw i + k)) = Some c.
Proof.
  rewrite choice_map_flat. revert nw i.
  induction choices as [|c0 cs IH]; intros [|n0 nw] [|i] Hpos Hc Hn Hk;
    simpl in Hc, Hn; try discriminate.
  - injection Hc as ->. injection Hn as ->.
    unfold offset. cbn [firstn combine flat_map]. rewrite sum_nil.
    unfold slots at 1, times. cbn [fst snd].
    rewrite nth_error_app1 by (rewrite repeat_length; lia).
    apply nth_error_repeat. lia.
  - inversion Hpos as [|? ? Hn0 Hnw]; subst.
    pose proof (offset_nonneg i Hnw) as Ho.
    unfold offset in *. cbn [firstn combine flat_map]. rewrite sum_cons.
    unfold slots at 1, times. cbn [fst snd].
    rewrite nth_error_app2 by (rewrite repeat_length; lia).
    rewrite repeat_length.
    replace (Z.to_nat (n0 + sum (firstn i nw) + k) - Z.to_nat n0)%nat
      with (Z.to_nat (sum (firstn i nw) + k)) by lia.
    now apply IH.
Qed.

(** X1. On a valid input the bytes are assigned by ranges: when the service
    sends the byte [offset nw i + k] with [0 <= k < nw_i], the choice at
    position [i] is returned.  Position [i] owns [nw_i] consecutive bytes,
    after those of the positions before it. *)
Theorem byte_ranges_select_positions {A} (choices : list A) weights nw
  (w : world) i c n k :
  valid_input choices weights ->
  normalized_weights (effective_weights choices weights) = Return nw ->
  nth_error choices i = Some c ->
  nth_error nw i = Some n ->
  0 <= k < n ->
  fst (quantum_random_byte w) = Return (JInt (offset nw i + k)) ->
  fst (quantum_choice choices weights w) = Return c.
Proof.
  intros Hv Enw Hc Hn Hk Hb.
  destruct (effective_weights_valid Hv) as [[Hpos Hsum] Hlen].
  destruct (normalized_weights_valid Hpos Hsum) as (nw' & E' & _ & Hnn & _).
  assert (nw' = nw) by congruence. subst nw'.
  assert (Eb : build choices weights = Return (choice_map choices nw)).
  { unfold build. now rewrite Enw. }
  rewrite (quantum_choice_built _ _ w Eb). cbn [fst]. rewrite Hb.
  cbn [bind subscript].
  pose proof (@choice_map_nth A choices nw i c n k Hnn Hc Hn Hk) as Hnth.
  pose proof (offset_nonneg i Hnn) as Ho.
  destruct (@getitem_in_range A (choice_map choices nw) (offset nw i + k))
    as (a & Ea & Ha).
  { split; [lia|].
    assert (Hlt : (Z.to_nat (offset nw i + k)
                   < List.length (choice_map choices nw))%nat).
    { apply nth_error_Some. congruence. }
    lia. }
  rewrite Ea. congruence.
Qed.

Lemma byte_ranges_select_positions_witness :
  fst (quantum_choice ["apple"; "banana"; "cherry"] (Some [1; 2; 3])
         (byte_service (offset [42; 85; 128] 1 + 84)))
  = Return "banana".
Proof.
  apply (@byte_ranges_select_positions
           string ["apple"; "banana"; "cherry"] (Some [1; 2; 3])
           [42; 85; 128]
           (byte_service (offset [42; 85; 128] 1 + 84)) 1%nat "banana" 85 84).
  - split; [discriminate|]. split; [reflexivity|].
    split; [repeat constructor; lia|reflexivity].
  - vm_compute. reflexivity.
  - reflexivity.
  - reflexivity.
  - lia.
  - reflexivity.
Defined.

(** X2. On a valid input, an integer [b] sent by the service selects a
    choice exactly when [-255 <= b < 255] (a negative index counts from the
    end of the choice map); every other integer, 255 among them, raises
    [IndexError]. *)
Theorem integers_in_and_out_of_range {A} (choices : list A) weights
  (w : world) b :
  valid_input choices weights ->
  fst (quantum_random_byte w) = Return (JInt b) ->
  (- 255 <= b < 255 ->
   exists c, fst (quantum_choice choices weights w) = Return c
             /\ In c choices)
  /\ (b < - 255 \/ 255 <= b ->
      fst (quantum_choice choices weights w) = Raise IndexError).
Proof.
  intros Hv Hb. destruct (build_valid Hv) as (nw & _ & E & Hlen).
  rewrite (quantum_choice_built _ _ w E). cbn [fst]. rewrite Hb.
  cbn [bind subscript].
  destruct (getitem_spec (choice_map choices nw) b) as [Hin Hout].
  rewrite Hlen in Hin, Hout. split.
  - intros Hr. destruct (Hin ltac:(lia)) as (c & Ec & Hc).
    exists c. split; [exact Ec|].
    apply choice_map_In in Hc. destruct Hc as (i & n & Hi & _).
    eapply nth_error_In; eassumption.
  - intros Hr. apply Hout. lia.
Qed.

Lemma integers_in_and_out_of_range_witness :
  (- 255 <= -1 < 255 ->
   exists c, fst (quantum_choice ["apple"; "banana"; "cherry"]
                    (Some [1; 2; 3]) (byte_service (-1))) = Return c
             /\ In c ["apple"; "banana"; "cherry"])
  /\ (-1 < - 255 \/ 255 <= -1 ->
      fst (quantum_choice ["apple"; "banana"; "cherry"]
             (Some [1; 2; 3]) (byte_service (-1))) = Raise IndexError).
Proof.
  apply (@integers_in_and_out_of_range
           string ["apple"; "banana"; "cherry"] (Some [1; 2; 3])
           (byte_service (-1)) (-1)).
  - split; [discriminate|]. split; [reflexivity|].
    split; [repeat constructor; lia|reflexivity].
  - reflexivity.
Defined.

(** X3. On a valid input, whatever the service answers - a value, an error
    status, no answer at all - [quantum_choice] issues exactly one request,
    and every value it returns is one of the choices. *)
Theorem one_request_per_call {A} (choices : list A) weights (w : world) :
  valid_input choices weights ->
  snd (quantum_choice choices weights w) = World (service w) (S (issued w))
  /\ forall c, fst (quantum_choice choices weights w) = Return c ->
               In c choices.
Proof.
  intros Hv. destruct (build_valid Hv) as (nw & _ & E & _).
  rewrite (quantum_choice_built _ _ w E). split; [reflexivity|].
  cbn [fst]. intros c Hc.
  destruct (fst (quantum_random_byte w)) as [v|]; [|discriminate].
  cbn [bind] in Hc.
  assert (Hin : In c (choice_map choices nw)).
  { destruct v; try discriminate; simpl in Hc;
      eapply getitem_In; eassumption. }
  apply choice_map_In in Hin. destruct Hin as (i & n & Hi & _).
  eapply nth_error_In; eassumption.
Qed.

Lemma one_request_per_call_witness :
  snd (quantum_choice ["apple"; "banana"; "cherry"] (Some [1; 2; 3])
         failing_service)
  = World (service failing_service) (S (issued failing_service))
  /\ forall c,
       fst (quantum_choice ["apple"; "banana"; "cherry"] (Some [1; 2; 3])
              failing_service) = Return c ->
       In c ["apple"; "banana"; "cherry"].
Proof.
  apply (@one_request_per_call
           string ["apple"; "banana"; "cherry"] (Some [1; 2; 3])
           failing_service).
  split; [discriminate|]. split; [reflexivity|].
  split; [repeat constructor; lia|reflexivity].
Defined.

(** A returned value sits at a position with a positive entry. *)
Lemma returned_choice_has_slots_aux {A} (choices : list A) weights
  (w : world) (c : A) :
  fst (quantum_choice choices weights w) = Return c ->
  exists nw i n,
    normalized_weights (effective_weights choices weights) = Return nw
    /\ nth_error choices i = Some c
    /\ nth_error nw i = Some n
    /\ 0 < n.
Proof.
  intros Hret. apply quantum_choice_returns_slot in Hret.
  destruct Hret as (cm & Eb & Hin). unfold build in Eb.
  destruct (normalized_weights (effective_weights choices weights))
    as [nw|] eqn:Enw; [|discriminate].
  cbn [bind] in Eb. injection Eb as <-.
  apply choice_map_In in Hin. destruct Hin as (i & n & Hi & Hn & Hpos).
  exists nw, i, n. repeat split; assumption.
Qed.

(** X4. Whatever the arguments - weights of another length than the
    choices, negative weights - a value returned by [quantum_choice] is a
    choice at a position that has a weight and whose entry in the final
    table is positive.  Choices beyond the last weight are never
    returned. *)
Theorem returned_choice_has_slots {A} (choices : list A) weights
  (w : world) (c : A) :
  fst (quantum_choice choices weights w) = Return c ->
  exists nw i n,
    normalized_weights (effective_weights choices weights) = Return nw
    /\ nth_error choices i = Some c
    /\ nth_error nw i = Some n
    /\ 0 < n
    /\ (i < List.length (effective_weights choices weights))%nat.
Proof.
  intros Hret. apply quantum_choice_returns_slot in Hret.
  destruct Hret as (cm & Eb & Hin). unfold build in Eb.
  destruct (normalized_weights (effective_weights choices weights))
    as [nw|] eqn:Enw; [|discriminate].
  cbn [bind] in Eb. injection Eb as <-.
  apply choice_map_In in Hin. destruct Hin as (i & n & Hi & Hn & Hpos).
  exists nw, i, n. repeat split; try assumption.
  assert (Hlen : List.length nw
                 = List.length (effective_weights choices weights)).
  { unfold normalized_weights in Enw.
    destruct (raw_weights (effective_weights choices weights))
      as [raw|] eqn:Eraw; [|discriminate].
    cbn [bind] in Enw.
    pose proof (comprehension_length _ _ Eraw) as Hraw.
    destruct (adjustment raw >? 0).
    - destruct (max_idx (effective_weights choices weights)) as [k|];
        [|discriminate].
      cbn [bind] in Enw.
      destruct (nth_error raw k) as [x|] eqn:Ex.
      + destruct (@add_at_spec raw k (adjustment raw) x Ex)
          as (nw' & E' & Hl & _).
        assert (nw' = nw) by congruence. subst nw'. congruence.
      + rewrite (@add_at_out_of_range raw k (adjustment raw) Ex) in Enw.
        discriminate.
    - injection Enw as <-. exact Hraw. }
  rewrite <- Hlen. apply nth_error_Some. congruence.
Qed.

Lemma returned_choice_has_slots_witness :
  exists nw i n,
    normalized_weights (effective_weights ["a"; "b"] (Some [1])) = Return nw
    /\ nth_error ["a"; "b"] i = Some "a"
    /\ nth_error nw i = Some n
    /\ 0 < n
    /\ (i < List.length (effective_weights ["a"; "b"] (Some [1%Z])))%nat.
Proof.
  apply (@returned_choice_has_slots
           string ["a"; "b"] (Some [1]) (byte_service 0) "a").
  reflexivity.
Defined.

(** *** The shape of the table *)

Lemma max_idx_first_max (ws : list Z) :
  ws <> [] -> exists k m, max_idx ws = Return k /\ first_max ws k m.
Proof.
  intros Hne.
  destruct (max_spec Hne) as (m & Em & Hin & Hmax).
  destruct (index_spec _ _ Hin) as (k & Ek & Hk & Hfirst).
  exists k, m. unfold max_idx. rewrite Em. cbn [bind].
  split; [exact Ek|]. split; [exact Hk|]. split; [exact Hmax|].
  intros j y Hj Hy. rewrite Forall_forall in Hmax.
  assert (y <= m) by (apply Hmax; eapply nth_error_In; eassumption).
  assert (y <> m) by (eapply Hfirst; eassumption). lia.
Qed.

Lemma first_max_unique (ws : list Z) k m k' m' :
  first_max ws k m -> first_max ws k' m' -> k = k' /\ m = m'.
Proof.
  intros (Hk & Hmax & Hfirst) (Hk' & Hmax' & Hfirst').
  rewrite Forall_forall in Hmax, Hmax'.
  assert (m' <= m) by (apply Hmax; eapply nth_error_In; eassumption).
  assert (m <= m') by (apply Hmax'; eapply nth_error_In; eassumption).
  assert (m = m') by lia. subst m'. split; [|reflexivity].
  destruct (Nat.lt_trichotomy k k') as [Hlt|[Heq|Hgt]]; [|assumption|].
  - pose proof (Hfirst' k m Hlt Hk). lia.
  - pose proof (Hfirst k' m Hgt Hk'). lia.
Qed.

(** The final table is the table of floors with the deficit added at the
    first position of the maximal weight. *)
Lemma normalized_weights_shape (ws : list Z) :
  valid_weights ws ->
  exists k m r nw,
    first_max ws k m
    /\ 0 < m
    /\ nth_error (map (floor_scaled (sum ws)) ws) k = Some r
    /\ normalized_weights ws = Return nw
    /\ nth_error nw k
       = Some (r + adjustment (map (floor_scaled (sum ws)) ws))
    /\ (forall j, j <> k ->
          nth_error nw j = nth_error (map (floor_scaled (sum ws)) ws) j)
    /\ 0 <= adjustment (map (floor_scaled (sum ws)) ws).
Proof.
  intros [Hpos Hsum].
  destruct (raw_weights_valid Hpos Hsum) as (E & Hr & Hb).
  set (raw := map (floor_scaled (sum ws)) ws) in *.
  assert (Hne : ws <> []) by (intros ->; rewrite sum_nil in Hsum; lia).
  destruct (max_idx_first_max Hne) as (k & m & Ek & Hfm).
  assert (Hm : 0 < m).
  { destruct Hfm as (_ & Hmax & _).
    destruct (Z.lt_ge_cases 0 m) as [|Hle]; [assumption|exfalso].
    assert (Hs : sum ws <= 0).
    { clear - Hmax Hle. induction Hmax as [|x l Hx _ IH];
        [rewrite sum_nil; lia|rewrite sum_cons; lia]. }
    lia. }
  assert (Hlt : (k < List.length raw)%nat).
  { unfold raw. rewrite length_map. apply nth_error_Some.
    destruct Hfm as (Hk & _). congruence. }
  destruct (nth_error raw k) as [r|] eqn:Er;
    [|apply nth_error_None in Er; lia].
  unfold normalized_weights. rewrite E. cbn [bind]. rewrite Ek.
  cbn [bind].
  destruct (Z.gtb_spec (adjustment raw) 0) as [Hadj|Hadj].
  - destruct (@add_at_spec raw k (adjustment raw) r Er)
      as (nw & Enw & _ & Hx & Hother & _).
    exists k, m, r, nw.
    split; [exact Hfm|]. split; [exact Hm|]. split; [exact Er|].
    split; [exact Enw|]. split; [exact Hx|]. split; [exact Hother|]. lia.
  - assert (Hz : adjustment raw = 0) by (unfold adjustment in *; lia).
    exists k, m, r, raw. rewrite Hz, Z.add_0_r.
    split; [exact Hfm|]. split; [exact Hm|]. split; [exact Er|].
    split; [reflexivity|]. split; [exact Er|]. split; [reflexivity|lia].
Qed.

Lemma floor_scaled_zero (total : Z) : 0 < total -> floor_scaled total 0 = 0.
Proof.
  intros HT.
  destruct (@scaled_valid total 0 HT ltac:(lia)) as (_ & H0 & Hb).
  change (inject_Z 0) with 0%Q in Hb. rewrite Qmult_0_r in Hb.
  assert (HTq : (0 < inject_Z total)%Q) by (now rewrite <- (Zlt_Qlt 0)).
  assert (Hq : (inject_Z (floor_scaled total 0) <= 0)%Q).
  { apply Qmult_le_r with (z := inject_Z total); [assumption|].
    now rewrite Qmult_0_l. }
  change 0%Q with (inject_Z 0) in Hq. rewrite <- Zle_Qle in Hq. lia.
Qed.

(** X5. On a valid input a choice whose weight is 0 at each of its
    positions has entry 0 in the final table and is never returned: the
    deficit goes to a maximal weight, which is positive. *)
Theorem weightless_choice_never_returned {A} (choices : list A) weights
  (c : A) :
  valid_input choices weights ->
  (forall i, nth_error choices i = Some c ->
             nth_error (effective_weights choices weights) i = Some 0) ->
  forall w, fst (quantum_choice choices weights w) <> Return c.
Proof.
  intros Hv Hzero w Hret.
  destruct (effective_weights_valid Hv) as [Hvw _].
  destruct (normalized_weights_shape Hvw)
    as (k & m & r & nw & Hfm & Hm & _ & Enw & _ & Hother & _).
  apply returned_choice_has_slots_aux in Hret.
  destruct Hret as (nw' & i & n & Enw' & Hi & Hn & Hpos).
  assert (nw' = nw) by congruence. subst nw'.
  pose proof (Hzero i Hi) as Hw.
  assert (Hik : i <> k).
  { intros ->. destruct Hfm as (Hk & _). rewrite Hk in Hw.
    injection Hw as ->. lia. }
  rewrite (Hother i Hik) in Hn.
  rewrite (map_nth_error _ _ _ Hw) in Hn.
  rewrite floor_scaled_zero in Hn by apply Hvw.
  injection Hn as <-. lia.
Qed.

Lemma weightless_choice_never_returned_witness :
  fst (quantum_choice ["a"; "b"; "c"] (Some [0; 1; 1]) (byte_service 0))
  <> Return "a".
Proof.
  refine (@weightless_choice_never_returned
            string ["a"; "b"; "c"] (Some [0; 1; 1]) "a" _ _ (byte_service 0)).
  - split; [discriminate|]. split; [reflexivity|].
    split; [repeat constructor; lia|reflexivity].
  - intros [|[|[|i]]] Hi; try discriminate Hi; [reflexivity|].
    destruct i; discriminate Hi.
Defined.

(** Each floor loses less than one unit. *)
Lemma floors_lose_less_than_one (total : Z) (l : list Z) :
  0 < total ->
  255 * sum l - Z.of_nat (List.length l) * (total - 1)
  <= total * sum (map (fun w => (255 * w) / total) l).
Proof.
  intros HT. induction l as [|w l IH].
  - simpl. rewrite sum_nil. lia.
  - cbn [map List.length]. rewrite !sum_cons.
    pose proof (Z.div_mod (255 * w) total ltac:(lia)) as Hdm.
    pose proof (Z.mod_pos_bound (255 * w) total HT) as Hr.
    nia.
Qed.

Lemma raw_weights_exact (ws : list Z) :
  valid_weights ws -> sum ws <= 2 ^ 43 ->
  map (floor_scaled (sum ws)) ws = map (fun w => (255 * w) / sum ws) ws.
Proof.
  intros [Hpos Hsum] Hsmall. apply map_ext_in. intros w Hw.
  pose proof (sum_bounds_elements Hpos) as Hall.
  rewrite Forall_forall in Hall.
  apply floor_scaled_exact; [lia|]. now apply Hall.
Qed.

(** X6. For valid weights with a total of at most [2^43], the deficit that
    the adjustment gives to the maximal weight is smaller than the number
    of weights. *)
Theorem deficit_below_number_of_weights (ws : list Z) :
  valid_weights ws -> sum ws <= 2 ^ 43 ->
  exists raw,
    raw_weights ws = Return raw
    /\ 0 <= adjustment raw < Z.of_nat (List.length ws).
Proof.
  intros Hv Hsmall. pose proof Hv as [Hpos Hsum].
  destruct (raw_weights_valid Hpos Hsum) as (E & _ & Hb).
  exists (map (floor_scaled (sum ws)) ws). split; [exact E|].
  unfold adjustment. split; [lia|].
  rewrite (raw_weights_exact Hv Hsmall).
  pose proof (@floors_lose_less_than_one (sum ws) ws Hsum) as Hl.
  assert (Hn : 0 < Z.of_nat (List.length ws)).
  { destruct ws; [rewrite sum_nil in Hsum; lia|simpl; lia]. }
  nia.
Qed.

Lemma deficit_below_number_of_weights_witness :
  exists raw,
    raw_weights [1; 2; 3] = Return raw
    /\ 0 <= adjustment raw < Z.of_nat (List.length [1; 2; 3]).
Proof.
  apply (@deficit_below_number_of_weights [1; 2; 3]).
  - split; [repeat constructor; lia|reflexivity].
  - vm_compute. discriminate.
Defined.

(** X7. For valid weights with a total of at most [2^43], the final table
    keeps the order of the weights: a strictly smaller weight never gets
    more slots. *)
Theorem table_keeps_order_of_weights (ws nw : list Z) i j wi wj ni nj :
  valid_weights ws -> sum ws <= 2 ^ 43 ->
  normalized_weights ws = Return nw ->
  nth_error ws i = Some wi -> nth_error ws j = Some wj ->
  wi < wj ->
  nth_error nw i = Some ni -> nth_error nw j = Some nj ->
  ni <= nj.
Proof.
  intros Hv Hsmall Enw Hi Hj Hlt Hni Hnj.
  destruct (normalized_weights_shape Hv)
    as (k & m & r & nw' & Hfm & _ & Hr & Enw' & Hk & Hother & Hadj).
  assert (nw' = nw) by congruence. subst nw'.
  rewrite (raw_weights_exact Hv Hsmall) in *.
  pose proof Hv as [Hpos Hsum].
  assert (Hdiv : (255 * wi) / sum ws <= (255 * wj) / sum ws).
  { apply Z.div_le_mono; lia. }
  assert (Hik : i <> k).
  { intros ->. destruct Hfm as (Hk' & Hmax & _).
    rewrite Forall_forall in Hmax.
    assert (wj <= m) by (apply Hmax; eapply nth_error_In; eassumption).
    assert (wi = m) by congruence. lia. }
  set (d := adjustment (map (fun w => (255 * w) / sum ws) ws)) in *.
  set (f := fun w => (255 * w) / sum ws) in *.
  assert (Eni : ni = f wi).
  { rewrite (Hother i Hik), (map_nth_error f _ _ Hi) in Hni. congruence. }
  destruct (Nat.eq_dec j k) as [->|Hjk].
  - assert (Er : r = f wj).
    { rewrite (map_nth_error f _ _ Hj) in Hr. congruence. }
    assert (Enj : nj = r + d) by congruence.
    subst ni nj r. unfold f. lia.
  - assert (Enj : nj = f wj).
    { rewrite (Hother j Hjk), (map_nth_error f _ _ Hj) in Hnj. congruence. }
    subst ni nj. unfold f. lia.
Qed.

Lemma table_keeps_order_of_weights_witness : 42 <= 128.
Proof.
  apply (@table_keeps_order_of_weights
           [1; 2; 3] [42; 85; 128] 0%nat 2%nat 1 3 42 128).
  - split; [repeat constructor; lia|reflexivity].
  - vm_compute. discriminate.
  - vm_compute. reflexivity.
  - reflexivity.
  - reflexivity.
  - lia.
  - reflexivity.
  - reflexivity.
Defined.

(** *** Uniform weights *)

Lemma floor_scaled_one (total : Z) :
  0 < total -> floor_scaled total 1 = 255 / total.
Proof.
  intros HT. destruct (Z.le_gt_cases total (2 ^ 43)) as [Hs|Hb].
  - rewrite floor_scaled_exact by lia. f_equal.
  - destruct (@scaled_valid total 1 HT ltac:(lia)) as (_ & H0 & Hq).
    rewrite Z.div_small by lia.
    destruct (Z.eq_dec (floor_scaled total 1) 0) as [E|N]; [exact E|exfalso].
    assert (H1 : (1 <= inject_Z (floor_scaled total 1))%Q).
    { rewrite <- (Zle_Qle 1). lia. }
    assert (HTq : (1000 <= inject_Z total)%Q).
    { change 1000%Q with (inject_Z 1000). rewrite <- Zle_Qle. lia. }
    change (inject_Z 1) with 1%Q in Hq. nra.
Qed.

(** X8. With the weights omitted and [N >= 1] choices, every choice gets
    [255 // N] slots and the first one gets the remainder [255 % N] on top:
    the uniform case favours the first choice, and with more than 255
    choices the first one holds all the slots. *)
Theorem uniform_table_favours_first_choice {A} (choices : list A) :
  choices <> [] ->
  let N := Z.of_nat (List.length choices) in
  normalized_weights (effective_weights choices None)
  = Return ((255 / N + 255 mod N)
              :: repeat (255 / N) (List.length choices - 1)).
Proof.
  intros Hne. cbv zeta.
  assert (Hv : valid_input choices None) by (split; [assumption|exact I]).
  destruct (effective_weights_valid Hv) as [Hvw _].
  pose proof Hvw as [Hpos Hsum].
  cbn [effective_weights] in *. unfold times in *. rewrite Nat2Z.id in *.
  destruct (List.length choices) as [|n] eqn:El.
  { destruct choices; [congruence|discriminate]. }
  set (N := Z.of_nat (S n)) in *.
  assert (HN : 0 < N) by (unfold N; lia).
  assert (Es : sum (repeat 1 (S n)) = N).
  { rewrite sum_repeat. unfold N. lia. }
  destruct (raw_weights_valid Hpos Hsum) as (E & _ & _).
  rewrite Es, map_repeat, (floor_scaled_one HN) in E.
  destruct (max_idx_first_max (ws := repeat 1 (S n)) ltac:(discriminate))
    as (k & m & Ek & Hfm).
  assert (Hk : k = O).
  { assert (H0 : first_max (repeat 1 (S n)) O 1).
    { split; [reflexivity|]. split.
      - apply Forall_forall. intros y Hy. apply repeat_spec in Hy. lia.
      - intros j y Hj. lia. }
    destruct (first_max_unique Hfm H0) as [-> _]. reflexivity. }
  subst k.
  unfold normalized_weights. rewrite E. cbn [bind]. rewrite Ek. cbn [bind].
  assert (Ha : adjustment (repeat (255 / N) (S n)) = 255 mod N).
  { unfold adjustment. rewrite sum_repeat.
    pose proof (Z.div_mod 255 N ltac:(lia)). unfold N in *. lia. }
  rewrite Ha. pose proof (Z.mod_pos_bound 255 N HN) as Hm.
  replace (S n - 1)%nat with n by lia.
  destruct (Z.gtb_spec (255 mod N) 0) as [Hg|Hg].
  - reflexivity.
  - replace (255 mod N) with 0 by lia. now rewrite Z.add_0_r.
Qed.

Lemma uniform_table_favours_first_choice_witness :
  let N := Z.of_nat (List.length ["a"; "b"]) in
  normalized_weights (effective_weights ["a"; "b"] None)
  = Return ((255 / N + 255 mod N)
              :: repeat (255 / N) (List.length ["a"; "b"] - 1)).
Proof.
  apply (@uniform_table_favours_first_choice string ["a"; "b"]).
  discriminate.
Defined.

(** *** Weights need not be normalized *)

Lemma sum_map_mul (k : Z) (ws : list Z) :
  sum (map (Z.mul k) ws) = k * sum ws.
Proof.
  induction ws as [|w ws IH]; cbn [map]; [rewrite !sum_nil; lia|].
  rewrite !sum_cons, IH. lia.
Qed.

Lemma floor_scaled_scale (k total w : Z) :
  0 < k -> 0 < total ->
  floor_scaled (k * total) (k * w) = floor_scaled total w.
Proof.
  intros Hk HT. unfold floor_scaled.
  assert (Hkq : (0 < inject_Z k)%Q) by (now rewrite <- (Zlt_Qlt 0)).
  assert (HTq : (0 < inject_Z total)%Q) by (now rewrite <- (Zlt_Qlt 0)).
  assert (E : (inject_Z (k * w) / inject_Z (k * total)
               == inject_Z w / inject_Z total)%Q).
  { rewrite !inject_Z_mult. field. split; lra. }
  apply Qfloor_comp. apply RN_comp. now rewrite (RN_comp E).
Qed.

Lemma first_max_scale (k : Z) (ws : list Z) i m :
  0 < k -> first_max ws i m -> first_max (map (Z.mul k) ws) i (k * m).
Proof.
  intros Hk (Hi & Hmax & Hfirst). split; [|split].
  - now apply map_nth_error.
  - apply Forall_forall. intros y Hy. apply in_map_iff in Hy.
    destruct Hy as (x & <- & Hx). rewrite Forall_forall in Hmax.
    pose proof (Hmax x Hx). nia.
  - intros j y Hj Hy. rewrite nth_error_map in Hy.
    destruct (nth_error ws j) as [x|] eqn:Ex; [|discriminate].
    injection Hy as <-. pose proof (Hfirst j x Hj Ex). nia.
Qed.

(** X9. Multiplying all the weights by a positive integer leaves the table
    as it is: only the proportions of valid weights count. *)
Theorem table_depends_on_proportions (k : Z) (ws : list Z) :
  valid_weights ws -> 0 < k ->
  normalized_weights (map (Z.mul k) ws) = normalized_weights ws.
Proof.
  intros Hv Hk. pose proof Hv as [Hpos Hsum].
  assert (Hpos' : Forall (fun w => 0 <= w) (map (Z.mul k) ws)).
  { apply Forall_forall. intros y Hy. apply in_map_iff in Hy.
    destruct Hy as (x & <- & Hx). rewrite Forall_forall in Hpos.
    pose proof (Hpos x Hx). nia. }
  assert (Hsum' : 0 < sum (map (Z.mul k) ws)).
  { rewrite sum_map_mul. nia. }
  destruct (raw_weights_valid Hpos Hsum) as (E & _ & _).
  destruct (raw_weights_valid Hpos' Hsum') as (E' & _ & _).
  assert (Eraw : map (floor_scaled (sum (map (Z.mul k) ws))) (map (Z.mul k) ws)
                 = map (floor_scaled (sum ws)) ws).
  { rewrite sum_map_mul, map_map. apply map_ext. intros w.
    now apply floor_scaled_scale. }
  rewrite Eraw in E'.
  assert (Hne : ws <> []) by (intros ->; rewrite sum_nil in Hsum; lia).
  assert (Hne' : map (Z.mul k) ws <> []) by (destruct ws; [congruence|discriminate]).
  destruct (max_idx_first_max Hne) as (i & m & Ei & Hfm).
  destruct (max_idx_first_max Hne') as (i' & m' & Ei' & Hfm').
  destruct (first_max_unique Hfm' (first_max_scale Hk Hfm)) as [-> _].
  unfold normalized_weights. rewrite E, E'. cbn [bind].
  now rewrite Ei, Ei'.
Qed.

Lemma table_depends_on_proportions_witness :
  normalized_weights (map (Z.mul 10) [1; 2; 3])
  = normalized_weights [1; 2; 3].
Proof.
  apply (@table_depends_on_proportions 10 [1; 2; 3]).
  - split; [repeat constructor; lia|reflexivity].
  - lia.
Defined.

(* ================================================================= *)
(** ** Further properties of [quantum_random_byte] *)

(** The validation of the payload raises [TypeError], [KeyError],
    [IndexError] or the "unexpected structure" error, never the error of
    line 19. *)
Lemma validate_never_fetch_error (data : json) e :
  validate data <> Raise (ValueError_fetch e).
Proof.
  unfold validate. destruct data; cbn [contains bind getkey];
    try discriminate.
  - destruct (String.index 0 "data" s); discriminate.
  - destruct (existsb (is_str "data") l); discriminate.
  - destruct (lookup "data" items) as [v|]; [|discriminate].
    destruct v; cbn [len bind]; try discriminate.
    + destruct (Z.of_nat (String.length s) =? 1)%Z; [|discriminate].
      destruct s; discriminate.
    + destruct (Z.of_nat (List.length l) =? 1)%Z; [|discriminate].
      destruct l; discriminate.
    + destruct (Z.of_nat (List.length items0) =? 1)%Z; discriminate.
Qed.

(** X10. [quantum_random_byte] raises the error of line 19 ("Failed to
    fetch ...") in three cases and no other: the request itself fails, the
    answer has a 4xx or 5xx status - whatever its body -, or the body of an
    answer with another status is not JSON. *)
Theorem fetch_error_causes (w : world) e :
  fst (quantum_random_byte w) = Raise (ValueError_fetch e)
  <-> (service w (issued w) = NoResponse e
       \/ (exists status body,
             service w (issued w) = Response status body
             /\ is_error_status status = true /\ e = HTTPError status)
       \/ (exists status,
             service w (issued w) = Response status None
             /\ is_error_status status = false /\ e = JSONDecodeError)).
Proof.
  unfold quantum_random_byte, get. cbn [fst].
  destruct (service w (issued w)) as [e'|status body].
  - split.
    + intros [= ->]. now left.
    + intros [[= ->]|[(s & b & H & _)|(s & H & _)]];
        [reflexivity|discriminate|discriminate].
  - destruct (is_error_status status) eqn:Es.
    + split.
      * intros [= <-]. right; left. now exists status, body.
      * intros [H|[(s & b & [= <- <-] & _ & ->)|(s & [= <- _] & Hs & _)]];
          [discriminate|reflexivity|congruence].
    + destruct body as [data|].
      * split.
        -- intros H. now apply validate_never_fetch_error in H.
        -- intros [H|[(s & b & [= <- _] & Hs & _)|(s & [= _] & _)]];
             [discriminate|congruence].
      * split.
        -- intros [= <-]. right; right. now exists status.
        -- intros [H|[(s & b & [= <- _] & Hs & _)|(s & _ & _ & ->)]];
             [discriminate|congruence|reflexivity].
Qed.

(* ================================================================= *)
(** ** The command line *)

(** X11. Whenever the script calls [quantum_choice], it passes at least one
    choice and exactly as many weights as choices. *)
Theorem cli_call_is_well_formed {W} (args : Cli.namespace W) cs ws :
  Cli.main args = Cli.PrintChoice cs ws ->
  cs <> [] /\ Cli.weight_count ws = List.length cs.
Proof.
  unfold Cli.main.
  destruct (Cli.test_distribution args); [discriminate|].
  destruct (Cli.test_rate_limit args); [discriminate|].
  assert (Hones : forall n : nat,
            List.length (times 1 (Z.of_nat n)) = n).
  { intros n. unfold times. rewrite Nat2Z.id. apply repeat_length. }
  destruct (Cli.choices args) as [|c0 cs0] eqn:Ec.
  - intros [= <- <-]. split; [discriminate|reflexivity].
  - destruct (Cli.weights args) as [[|x xs]|].
    + intros H.
      assert (E1 : cs = c0 :: cs0) by congruence.
      assert (E2 : ws = Cli.Ints (times 1 (Z.of_nat (List.length (c0 :: cs0)))))
        by congruence.
      subst cs ws. split; [discriminate|apply Hones].
    + destruct (Nat.eqb_spec (List.length (x :: xs))
                             (List.length (c0 :: cs0))) as [El|El];
        [|discriminate].
      intros H.
      assert (E1 : cs = c0 :: cs0) by congruence.
      assert (E2 : ws = Cli.Floats (x :: xs)) by congruence.
      subst cs ws. split; [discriminate|exact El].
    + intros H.
      assert (E1 : cs = c0 :: cs0) by congruence.
      assert (E2 : ws = Cli.Ints (times 1 (Z.of_nat (List.length (c0 :: cs0)))))
        by congruence.
      subst cs ws. split; [discriminate|apply Hones].
Qed.

Lemma cli_call_is_well_formed_witness :
  ["x"; "y"] <> []
  /\ Cli.weight_count (Cli.Floats [true; false]) = List.length ["x"; "y"].
Proof.
  apply (@cli_call_is_well_formed
           bool (Cli.Namespace ["x"; "y"] (Some [true; false]) false false)).
  reflexivity.
Defined.

(** X12. The script ends with the usage error exactly when no test flag is
    set, at least one choice and at least one weight are given, and their
    numbers differ.  Weights given without any choice, and [-w] without a
    value, are accepted. *)
Theorem cli_usage_error_iff {W} (args : Cli.namespace W) :
  Cli.main args = Cli.UsageError
  <-> (Cli.test_distribution args = false
       /\ Cli.test_rate_limit args = false
       /\ Cli.choices args <> []
       /\ exists ws, Cli.weights args = Some ws
                     /\ ws <> []
                     /\ List.length ws <> List.length (Cli.choices args)).
Proof.
  unfold Cli.main.
  destruct (Cli.test_distribution args).
  { split; [discriminate|]. intros (H & _). discriminate. }
  destruct (Cli.test_rate_limit args).
  { split; [discriminate|]. intros (_ & H & _). discriminate. }
  destruct (Cli.choices args) as [|c0 cs0].
  { split; [discriminate|]. intros (_ & _ & H & _). congruence. }
  destruct (Cli.weights args) as [[|x xs]|].
  - split; [discriminate|].
    intros (_ & _ & _ & ws & [= <-] & H & _). congruence.
  - destruct (Nat.eqb_spec (List.length (x :: xs))
                           (List.length (c0 :: cs0))) as [El|El].
    + split; [discriminate|].
      intros (_ & _ & _ & ws & [= <-] & _ & H). congruence.
    + split; [|reflexivity]. intros _.
      repeat split; try discriminate.
      exists (x :: xs). repeat split; [discriminate|exact El].
  - split; [discriminate|].
    intros (_ & _ & _ & ws & H & _). discriminate.
Qed.

(** X13. Without a test flag and without weights ([-w] absent or empty),
    or without choices, the script calls [quantum_choice] on a valid input
    with int weights - the choices of the command line with weights 1, or
    the three fruits with weights 1, 2, 3 when no choice is given, whatever
    weights are given then.  So every byte from 0 to 254 makes it print one
    of these choices. *)
Theorem cli_without_weights_is_valid {W} (args : Cli.namespace W) :
  Cli.test_distribution args = false ->
  Cli.test_rate_limit args = false ->
  Cli.choices args = [] \/ Cli.weights args = None
  \/ Cli.weights args = Some [] ->
  exists cs ws,
    Cli.main args = Cli.PrintChoice cs (Cli.Ints ws)
    /\ (Cli.choices args <> [] -> cs = Cli.choices args)
    /\ (Cli.choices args = [] ->
        cs = ["apple"; "banana"; "cherry"] /\ ws = [1; 2; 3])
    /\ valid_input cs (Some ws)
    /\ forall (w : world) b,
         0 <= b < 255 ->
         fst (quantum_random_byte w) = Return (JInt b) ->
         exists c, fst (quantum_choice cs (Some ws) w) = Return c
                   /\ In c cs.
Proof.
  intros Hd Hr Hcase. unfold Cli.main. rewrite Hd, Hr.
  assert (Hgen : forall (cs : list string) ws, valid_input cs (Some ws) ->
            forall (w : world) b,
              0 <= b < 255 ->
              fst (quantum_random_byte w) = Return (JInt b) ->
              exists c, fst (quantum_choice cs (Some ws) w) = Return c
                        /\ In c cs).
  { intros cs ws Hv w b Hb Hq.
    exact (bytes_below_255_defined (choices := cs) w Hv Hb Hq). }
  destruct (Cli.choices args) as [|c0 cs0] eqn:Ec.
  - exists ["apple"; "banana"; "cherry"], [1; 2; 3].
    assert (Hv : valid_input ["apple"; "banana"; "cherry"] (Some [1; 2; 3])).
    { split; [discriminate|]. split; [reflexivity|].
      split; [repeat constructor; lia|reflexivity]. }
    split; [reflexivity|]. split; [congruence|].
    split; [now split|]. split; [exact Hv|]. now apply Hgen.
  - assert (Hw : Cli.weights args = None \/ Cli.weights args = Some []).
    { destruct Hcase as [H|H]; [discriminate|exact H]. }
    assert (Hv0 : valid_input (c0 :: cs0) None) by (split; [discriminate|exact I]).
    destruct (effective_weights_valid Hv0) as [Hvw Hlen].
    cbn [effective_weights] in Hvw, Hlen.
    assert (Hv : valid_input (c0 :: cs0)
                   (Some (times 1 (Z.of_nat (List.length (c0 :: cs0)))))).
    { split; [discriminate|]. split; assumption. }
    exists (c0 :: cs0), (times 1 (Z.of_nat (List.length (c0 :: cs0)))).
    split.
    { destruct Hw as [-> | ->]; reflexivity. }
    split; [reflexivity|]. split; [discriminate|].
    split; [exact Hv|]. now apply Hgen.
Qed.

Lemma cli_without_weights_is_valid_witness :
  exists cs ws,
    Cli.main (Cli.Namespace [] (Some [true]) false false)
    = Cli.PrintChoice cs (Cli.Ints ws)
    /\ (Cli.choices (Cli.Namespace [] (Some [true]) false false) <> [] ->
        cs = Cli.choices (Cli.Namespace [] (Some [true]) false false))
    /\ (Cli.choices (Cli.Namespace [] (Some [true]) false false) = [] ->
        cs = ["apple"; "banana"; "cherry"] /\ ws = [1; 2; 3])
    /\ valid_input cs (Some ws)
    /\ forall (w : world) b,
         0 <= b < 255 ->
         fst (quantum_random_byte w) = Return (JInt b) ->
         exists c, fst (quantum_choice cs (Some ws) w) = Return c
                   /\ In c cs.
Proof.
  apply (@cli_without_weights_is_valid
           bool (Cli.Namespace [] (Some [true]) false false)).
  - reflexivity.
  - reflexivity.
  - left. reflexivity.
Defined.

(* ================================================================= *)
(** ** The distribution test *)

Import PyDict DistributionTest.

(** Counting one more occurrence of [k] adds one to the total, keeps the
    other counts and may add the key [k]. *)
Lemma count_one_more (k : string) (d : dict) :
  sum (values (set k (get k d 0 + 1) d)) = sum (values d) + 1
  /\ get k (set k (get k d 0 + 1) d) 0 = get k d 0 + 1
  /\ (forall k', k' <> k ->
        get k' (set k (get k d 0 + 1) d) 0 = get k' d 0)
  /\ (forall k', In k' (keys (set k (get k d 0 + 1) d)) ->
        k' = k \/ In k' (keys d)).
Proof.
  unfold values, keys. induction d as [|[k0 v0] d IH].
  - cbn [get set map fst snd]. rewrite String.eqb_refl.
    split; [reflexivity|]. split; [reflexivity|]. split.
    + intros k' Hk'. destruct (String.eqb_spec k' k); [congruence|reflexivity].
    + intros k' [<-|[]]. now left.
  - cbn [get set]. destruct (String.eqb_spec k k0) as [->|Hne].
    + cbn [map get fst snd]. rewrite String.eqb_refl, !sum_cons.
      split; [lia|]. split; [reflexivity|]. split.
      * intros k' Hk'.
        destruct (String.eqb_spec k' k0); [congruence|reflexivity].
      * intros k' Hin. right. exact Hin.
    + destruct IH as (IH1 & IH2 & IH3 & IH4).
      cbn [map get fst snd]. rewrite !sum_cons.
      destruct (String.eqb_spec k k0); [congruence|].
      split; [rewrite IH1; lia|]. split; [exact IH2|]. split.
      * intros k' Hk'. destruct (String.eqb_spec k' k0); [reflexivity|].
        now apply IH3.
      * intros k' [<-|Hin]; [right; now left|].
        destruct (IH4 k' Hin) as [->|H]; [now left|right; now right].
Qed.

(** A value returned by [quantum_choice] is one of the choices, and one
    request has been issued. *)
Lemma quantum_choice_return_inv {A} (choices : list A) weights
  (w : world) (c : A) :
  fst (quantum_choice choices weights w) = Return c ->
  snd (quantum_choice choices weights w) = World (service w) (S (issued w))
  /\ In c choices.
Proof.
  intros Hret. pose proof Hret as Hslot.
  apply quantum_choice_returns_slot in Hslot.
  destruct Hslot as (cm & Eb & Hin).
  rewrite (quantum_choice_built _ _ w Eb). split; [reflexivity|].
  unfold build in Eb.
  destruct (normalized_weights (effective_weights choices weights))
    as [nw|]; [|discriminate].
  cbn [bind] in Eb. injection Eb as <-.
  apply choice_map_In in Hin. destruct Hin as (i & n & Hi & _).
  eapply nth_error_In; eassumption.
Qed.

Lemma answer_next (w : world) :
  fst (quantum_random_byte w) = answer w (issued w).
Proof. destruct w. reflexivity. Qed.

(** X14. When the sampling loop completes, it has issued one request per
    sample; the counts of [results] have grown by the number of samples in
    total, no count has decreased, and every new key is one of the
    fruits. *)
Theorem sampling_counts_every_draw (fruits : list string) (weights : list Z)
  (samples : nat) (results r : dict) (w w' : world) :
  sampling fruits weights samples results w = (Return r, w') ->
  w' = World (service w) (issued w + samples)
  /\ sum (values r) = sum (values results) + Z.of_nat samples
  /\ (forall k, get k results 0 <= get k r 0)
  /\ (forall k, In k (keys r) -> In k (keys results) \/ In k fruits).
Proof.
  revert results w. induction samples as [|n IH]; intros results w.
  - cbn [sampling]. intros [= <- <-]. rewrite Nat.add_0_r.
    split; [now destruct w|]. split; [simpl; lia|].
    split; [intros; lia|]. intros k Hk. now left.
  - cbn [sampling].
    destruct (quantum_choice fruits (Some weights) w) as [[c|e] w1] eqn:Eq;
      [|discriminate].
    destruct (@quantum_choice_return_inv string fruits (Some weights) w c)
      as [Hw1 Hc]; [now rewrite Eq|].
    rewrite Eq in Hw1. cbn [snd] in Hw1. subst w1.
    intros Hs. apply IH in Hs. cbn [service issued] in Hs.
    destruct Hs as (Hw' & Hsum & Hmono & Hkeys).
    destruct (count_one_more c results) as (C1 & C2 & C3 & C4).
    split; [rewrite Hw'; f_equal; lia|].
    split; [rewrite Hsum, C1; lia|]. split.
    + intros k. specialize (Hmono k).
      destruct (String.eqb_spec k c) as [->|Hne].
      * rewrite C2 in Hmono. lia.
      * rewrite (C3 k Hne) in Hmono. exact Hmono.
    + intros k Hk. destruct (Hkeys k Hk) as [H|H]; [|now right].
      destruct (C4 k H) as [->|H']; [now right|now left].
Qed.

Lemma sampling_counts_every_draw_witness :
  World (service (byte_service 50)) 3
  = World (service (byte_service 50)) (issued (byte_service 50) + 3)
  /\ sum (values [("banana", 3)]) = sum (values []) + Z.of_nat 3
  /\ (forall k, get k [] 0 <= get k [("banana", 3)] 0)
  /\ (forall k, In k (keys [("banana", 3)]) ->
        In k (keys []) \/ In k ["apple"; "banana"; "cherry"]).
Proof.
  apply (@sampling_counts_every_draw
           ["apple"; "banana"; "cherry"] [1; 2; 3] 3 [] [("banana", 3)]
           (byte_service 50) (World (service (byte_service 50)) 3)).
  vm_compute. reflexivity.
Defined.

Lemma good_bytes_next (w : world) (n : nat) :
  good_bytes w (S n) ->
  (exists b, fst (quantum_random_byte w) = Return (JInt b) /\ 0 <= b < 255)
  /\ good_bytes (World (service w) (S (issued w))) n.
Proof.
  intros Hg. split.
  - destruct (Hg O ltac:(lia)) as (b & Hb & Hr).
    rewrite Nat.add_0_r in Hb. exists b. now rewrite answer_next.
  - intros j Hj. destruct (Hg (S j) ltac:(lia)) as (b & Hb & Hr).
    exists b. split; [|exact Hr]. cbn [issued].
    replace (S (issued w) + j)%nat with (issued w + S j)%nat by lia.
    exact Hb.
Qed.

(** One draw on a valid input and a byte between 0 and 254. *)
Lemma draw_good_byte (fruits : list string) (weights : list Z) (w : world) :
  valid_input fruits (Some weights) ->
  (exists b, fst (quantum_random_byte w) = Return (JInt b) /\ 0 <= b < 255) ->
  exists c, quantum_choice fruits (Some weights) w
            = (Return c, World (service w) (S (issued w))).
Proof.
  intros Hv (b & Hb & Hr).
  destruct (bytes_below_255_defined (choices := fruits) w Hv Hr Hb)
    as (c & Ec & _).
  destruct (@quantum_choice_return_inv string fruits (Some weights) w c Ec)
    as [Hw _].
  exists c. destruct (quantum_choice fruits (Some weights) w) as [r w1].
  cbn [fst snd] in *. congruence.
Qed.

(** X15. On a valid input, when the service answers the next [samples]
    requests with bytes between 0 and 254, the sampling loop completes: it
    returns the counts after exactly [samples] requests. *)
Theorem sampling_completes_on_good_bytes (fruits : list string)
  (weights : list Z) (samples : nat) (results : dict) (w : world) :
  valid_input fruits (Some weights) ->
  good_bytes w samples ->
  exists r,
    sampling fruits weights samples results w
    = (Return r, World (service w) (issued w + samples)).
Proof.
  intros Hv. revert results w.
  induction samples as [|n IH]; intros results w Hg.
  - exists results. cbn [sampling]. rewrite Nat.add_0_r. now destruct w.
  - apply good_bytes_next in Hg. destruct Hg as [Hb Hg].
    destruct (draw_good_byte w Hv Hb) as (c & Ec).
    cbn [sampling]. rewrite Ec.
    destruct (IH (set c (get c results 0 + 1) results) _ Hg) as (r & Er).
    exists r. rewrite Er. cbn [service issued]. do 2 f_equal. lia.
Qed.

Lemma sampling_completes_on_good_bytes_witness :
  exists r,
    test_quantum_choice_distribution (byte_service 50)
    = (Return r,
       World (service (byte_service 50)) (issued (byte_service 50) + 1000)).
Proof.
  apply (@sampling_completes_on_good_bytes
           ["apple"; "banana"; "cherry"] [1; 2; 3] 1000 [] (byte_service 50)).
  - split; [discriminate|]. split; [reflexivity|].
    split; [repeat constructor; lia|reflexivity].
  - intros j Hj. exists 50. split; [reflexivity|lia].
Defined.

(** X16. On a valid input, the first byte 255 ends the whole test: when
    the service answers [k] requests with bytes between 0 and 254 and the
    next one with 255, and more than [k] samples are asked for, the
    sampling loop raises [IndexError] after [k + 1] requests and no count
    is returned. *)
Theorem sampling_aborts_on_byte_255 (fruits : list string)
  (weights : list Z) (samples k : nat) (results : dict) (w : world) :
  valid_input fruits (Some weights) ->
  (k < samples)%nat ->
  good_bytes w k ->
  answer w (issued w + k) = Return (JInt 255) ->
  sampling fruits weights samples results w
  = (Raise IndexError, World (service w) (issued w + k + 1)).
Proof.
  intros Hv. revert samples results w.
  induction k as [|k IH]; intros [|n] results w Hk Hg Ha; try lia.
  - rewrite Nat.add_0_r in Ha. rewrite <- answer_next in Ha.
    cbn [sampling].
    pose proof (last_byte_out_of_range (choices := fruits) w Hv Ha) as Hf.
    destruct (build_valid Hv) as (nw & _ & Eb & _).
    rewrite (quantum_choice_built _ _ w Eb) in Hf |- *.
    cbn [fst] in Hf. rewrite Hf. do 2 f_equal. lia.
  - apply good_bytes_next in Hg. destruct Hg as [Hb Hg].
    destruct (draw_good_byte w Hv Hb) as (c & Ec).
    cbn [sampling]. rewrite Ec.
    rewrite (IH n (set c (get c results 0 + 1) results)
                (World (service w) (S (issued w)))).
    + cbn [service issued]. do 2 f_equal. lia.
    + lia.
    + exact Hg.
    + cbn [service issued].
      replace (S (issued w) + k)%nat with (issued w + S k)%nat by lia.
      exact Ha.
Qed.

Lemma sampling_aborts_on_byte_255_witness :
  test_quantum_choice_distribution (service_255_at 2)
  = (Raise IndexError,
     World (service (service_255_at 2)) (issued (service_255_at 2) + 2 + 1)).
Proof.
  apply (@sampling_aborts_on_byte_255
           ["apple"; "banana"; "cherry"] [1; 2; 3] 1000 2 []
           (service_255_at 2)).
  - split; [discriminate|]. split; [reflexivity|].
    split; [repeat constructor; lia|reflexivity].
  - lia.
  - intros [|[|j]] Hj; [exists 0|exists 0|lia]; (split; [reflexivity|lia]).
  - reflexivity.
Defined.

(* ================================================================= *)
(** ** What success and failure tell *)






